(** * cocktAIe: the recommendation engine and the two input/result screens

    A shallow embedding of
    - the three Python snippets of the recommendation upgrade plan
      ([_get_recent_recommendations], [calculate_universality_penalty],
      [_diversity_weighted_random_select]);
    - the scoring and penalty pipeline that the specification describes
      around them;
    - the pure parts of [ResultCard.tsx] and [VoiceInputScreen.tsx].

    Python floats are idealised as rationals ([Q], compared with [==]);
    Python and JavaScript exceptions are values of an error monad. *)

From Stdlib Require Import Ascii String QArith Qminmax Lqa.
From stdpp Require Import gmap strings list sorting.

Set Default Proof Using "Type".

(* ===================================================================== *)
(** * Part I: the embedding                                               *)
(* ===================================================================== *)

(** ** Python run-time: exceptions, slices, [random.choices] *)
Module Py.

(** The built-in exceptions that the modelled code can raise, and the
    engine's own [NoCandidatesError]. *)
Inductive exn := ZeroDivisionError | ValueError | IndexError | NoCandidatesError.

Inductive result (A : Type) :=
| Ok (a : A)
| Raise (e : exn).
Arguments Ok {A} a.
Arguments Raise {A} e.

#[export] Instance result_ret : MRet result := λ A a, Ok a.
#[export] Instance result_bind : MBind result := λ A B k m,
  match m with
  | Ok a => k a
  | Raise e => Raise e
  end.

#[export] Instance Qeq_decision (x y : Q) : Decision (x == y)%Q := Qeq_dec x y.

(** [[f(x) for x in xs]] where [f] may raise: stops at the first exception. *)
Fixpoint for_each {A B} (f : A → result B) (xs : list A) : result (list B) :=
  match xs with
  | [] => Ok []
  | x :: xs' => y ← f x; ys ← for_each f xs'; Ok (y :: ys)
  end.

(** [a / b] on floats. *)
Definition truediv (a b : Q) : result Q :=
  if Qeq_bool b 0 then Raise ZeroDivisionError else Ok (a / b)%Q.

(** [sum(xs)] on floats. *)
Definition sum (xs : list Q) : Q := foldl Qplus 0%Q xs.

(** [l[start:]]: a negative [start] counts from the end, and both ends
    are clipped to the list. *)
Definition slice_from {A} (start : Z) (l : list A) : list A :=
  let len := Z.of_nat (length l) in
  let start' := if (start <? 0)%Z then Z.max (len + start) 0 else Z.min start len in
  drop (Z.to_nat start') l.

(** [itertools.accumulate(ws)]: running totals. *)
Fixpoint accumulate_from (acc : Q) (ws : list Q) : list Q :=
  match ws with
  | [] => []
  | w :: ws' => (acc + w)%Q :: accumulate_from (acc + w)%Q ws'
  end.
Definition accumulate (ws : list Q) : list Q :=
  match ws with
  | [] => []
  | w :: ws' => w :: accumulate_from w ws'
  end.

(** [l[i]] for an index that is not negative. *)
Definition subscript {A} (l : list A) (i : nat) : result A :=
  match l !! i with
  | Some x => Ok x
  | None => Raise IndexError
  end.

(** [bisect.bisect_right(a, x, lo, hi)]: the loop
    [while lo < hi: mid = (lo + hi) // 2; if x < a[mid]: hi = mid else: lo = mid + 1],
    run for at most [fuel] rounds ([hi - lo] rounds always suffice). *)
Fixpoint bisect_loop (fuel : nat) (a : list Q) (x : Q) (lo hi : nat) : nat :=
  match fuel with
  | O => lo
  | S fuel' =>
      if (lo <? hi)%nat then
        let mid := ((lo + hi) / 2)%nat in
        if Qlt_le_dec x (nth mid a 0%Q)
        then bisect_loop fuel' a x lo mid
        else bisect_loop fuel' a x (S mid) hi
      else lo
  end.
Definition bisect (a : list Q) (x : Q) (lo hi : nat) : nat :=
  bisect_loop (hi - lo) a x lo hi.

(** [random.choices(population, weights=weights, k=k)]; [rng i] is the
    value that the [i]-th call of [random()] returns, in [[0, 1)]. *)
Definition choices {A} (rng : nat → Q) (population : list A) (weights : list Q)
    (k : nat) : result (list A) :=
  let n := length population in
  let cum_weights := accumulate weights in
  if negb (length cum_weights =? n)%nat then Raise ValueError else
  match last cum_weights with
  | None => Raise IndexError
  | Some total =>
      if Qle_bool total 0 then Raise ValueError else
      let hi := (n - 1)%nat in
      for_each (λ i, subscript population (bisect cum_weights (rng i * total)%Q 0 hi))
               (seq 0 k)
  end.

End Py.
Import Py.

(** ** The recommendation agent (upgrade plan, "技术实现细节") *)
Module CocktailAgent.

Local Open Scope Q_scope.

(** An entry of [cocktails.json] as a dict; [Need] is [None] when the key
    is absent. *)
Record Cocktail := {
  Name : string;
  Category : string;
  Energy : Q;
  Tension : Q;
  Control : Q;
  Need : option (list string);
  Recipe : string;
  Description : string;
}.

(** A scored candidate: a cocktail dict with a ['score'] entry. *)
Record Candidate := {
  cocktail : Cocktail;
  score : Q;
}.

(** *** 1. 推荐历史管理 *)

(** [self._recommendation_history]: [{user_session_id: [cocktail_names]}]. *)
Abbreviation History := (gmap string (list string)).

Definition _get_recent_recommendations (_recommendation_history : History)
    (session_id : string) (limit : Z) : list string :=
  slice_from (- limit) (default [] (_recommendation_history !! session_id)).

Definition default_limit : Z := 10.

(** *** 2. 反通用性惩罚 *)

Definition COMMON_NEEDS : list string :=
  ["comfort"; "relaxation"; "casual fun"; "ease"; "approachability"]%string.

(** [str.lower()] on the ASCII range. Outside it no character lowers to a
    letter used in [COMMON_NEEDS], so membership below is not affected. *)
Definition ascii_lower (c : ascii) : ascii :=
  let n := nat_of_ascii c in
  if ((65 <=? n) && (n <=? 90))%nat then ascii_of_nat (n + 32) else c.
Fixpoint lower (s : string) : string :=
  match s with
  | EmptyString => EmptyString
  | String c s' => String (ascii_lower c) (lower s')
  end.

Definition is_common (need : string) : bool :=
  bool_decide (lower need ∈ COMMON_NEEDS).

(** [sum(1 for need in needs if need.lower() in COMMON_NEEDS)] *)
Definition common_count (needs : list string) : Z :=
  foldl Z.add 0%Z ((λ _, 1%Z) <$> filter (λ need, is_common need = true) needs).

Definition calculate_universality_penalty (c : Cocktail) : Q :=
  let needs := default [] (Need c) in
  let common_count := common_count needs in
  if (2 <=? common_count)%Z then 75 # 100
  else if (common_count =? 1)%Z then 9 # 10
  else 1.

(** *** 3. Top-K随机化 *)

Definition score_range (max_score min_score : Q) : Q :=
  if Qlt_le_dec min_score max_score then max_score - min_score else 1.

(** The loop body: [base_prob + score_bonus] of one candidate. *)
Definition unnormalized_probability (n : nat) (min_score score_range : Q)
    (candidate : Candidate) : Q :=
  let len := inject_Z (Z.of_nat n) in
  let base_prob := (1 # 10) / len in
  let score_bonus := (9 # 10) * ((score candidate - min_score) / score_range) / len in
  base_prob + score_bonus.

(** The list [probabilities] handed to [random.choices] as weights.
    [top_k_candidates[0]] and [top_k_candidates[-1]] need a pool that is
    not empty, which the guard on [k] provides. *)
Definition selection_probabilities (top_k_candidates : list Candidate)
    : result (list Q) :=
  match top_k_candidates, last top_k_candidates with
  | first :: _, Some final =>
      let max_score := score first in
      let min_score := score final in
      let score_range := score_range max_score min_score in
      let probabilities :=
        unnormalized_probability (length top_k_candidates) min_score score_range
          <$> top_k_candidates in
      let total_prob := sum probabilities in
      for_each (λ p, truediv p total_prob) probabilities
  | _, _ => Raise IndexError
  end.

Definition _diversity_weighted_random_select (rng : nat → Q)
    (top_k_candidates : list Candidate) (k : nat) : result (list Candidate) :=
  if (length top_k_candidates <=? k)%nat then Ok top_k_candidates else
  probabilities ← selection_probabilities top_k_candidates;
  choices rng top_k_candidates probabilities k.

Definition default_k : nat := 1.

End CocktailAgent.

(** ** The matching-and-diversification engine around the three snippets

  The upgrade plan only lists the three helpers above; the scoring
  function, the penalty composition, the cluster index and the history
  update are given by the specification (sections 3, 4 and 7). *)
Module Engine.
Import CocktailAgent.
Local Open Scope Q_scope.

(** Modelled from the spec: the profile of section 3, three numbers and
    a set of need tags. *)
Record EmotionalProfile := {
  energy : Q;
  tension : Q;
  control : Q;
  needs : gset string;
}.

(** Modelled from the spec: the configuration of section 6; [ε] and the
    common-need tags are the constants of the agent's code. *)
Record Config := {
  w_dim : Q;
  w_need : Q;
  K : nat;
  H : nat;
  dimension_bucket_thresholds : Q * Q;
}.

(** Modelled from the spec: the stated defaults, with the tertile split
    of [[1, 5]] as bucket thresholds. *)
Definition default_config : Config :=
  {| w_dim := 6 # 10; w_need := 15 # 10; K := 10; H := 10;
     dimension_bucket_thresholds := (233 # 100, 367 # 100) |}.

(** A count as a number. *)
Definition of_nat (n : nat) : Q := inject_Z (Z.of_nat n).

(** *** 4.1 Scoring Engine *)

(** Modelled from the spec: the item's needs as a set of tags. *)
Definition need_set (item : Cocktail) : gset string :=
  list_to_set (default [] (Need item)).

(** Modelled from the spec: the squared differences of the three
    dimensions, summed. *)
Definition sum_of_squares (profile : EmotionalProfile) (item : Cocktail) : Q :=
  (energy profile - Energy item) ^ 2
  + (tension profile - Tension item) ^ 2
  + (control profile - Control item) ^ 2.

(** Modelled from the spec: the scoring function itself is not part of the
    upgrade plan. [dimension_score = 1 / (1 + sum_of_squares)]. *)
Definition dimension_score (profile : EmotionalProfile) (item : Cocktail) : result Q :=
  truediv 1 (1 + sum_of_squares profile item).

(** Modelled from the spec: the need-overlap component,
    [|profile.needs ∩ item.needs| / max(1, |item.needs|)]. *)
Definition need_score (profile : EmotionalProfile) (item : Cocktail) : result Q :=
  truediv (of_nat (size (needs profile ∩ need_set item)))
          (of_nat (Nat.max 1 (size (need_set item)))).

(** Modelled from the spec: [raw_score = w_dim · dimension_score + w_need · need_score]. *)
Definition raw_score (cfg : Config) (profile : EmotionalProfile) (item : Cocktail)
    : result Q :=
  d ← dimension_score profile item;
  n ← need_score profile item;
  Ok (w_dim cfg * d + w_need cfg * n).

(** *** 4.3 Cluster Index *)

Inductive Bucket := Low | Mid | High.
#[export] Instance Bucket_eq_dec : EqDecision Bucket.
Proof. solve_decision. Defined.

(** Modelled from the spec: three dimension buckets and the need-group
    id; the id is the canonical need set itself, so equal need sets share it. *)
Definition ClusterKey : Type := Bucket * Bucket * Bucket * gset string.

(** Modelled from the spec: bands [[1, t1)] low, [[t1, t2)] mid, [[t2, 5]] high. *)
Definition bucket (cfg : Config) (v : Q) : Bucket :=
  let '(t1, t2) := dimension_bucket_thresholds cfg in
  if Qlt_le_dec v t1 then Low else if Qlt_le_dec v t2 then Mid else High.

(** Modelled from the spec: the cluster key of an item. *)
Definition cluster_key (cfg : Config) (item : Cocktail) : ClusterKey :=
  (bucket cfg (Energy item), bucket cfg (Tension item), bucket cfg (Control item),
   need_set item).

(** Modelled from the spec: [build(catalog) → mapping[name → cluster_key]]. *)
Definition build (cfg : Config) (catalog : list Cocktail) : gmap string ClusterKey :=
  list_to_map ((λ item, (Name item, cluster_key cfg item)) <$> catalog).

(** *** 3 Session History *)

(** Modelled from the spec: the append operation, missing next to
    [_get_recent_recommendations]. The chosen name goes to the end and
    entries are evicted from the front once the length exceeds [H]. *)
Definition record_selection (cfg : Config) (session_id : string) (name : string)
    (history : History) : History :=
  let entries := default [] (history !! session_id) ++ [name] in
  <[session_id := drop (length entries - H cfg) entries]> history.

(** Modelled from the spec: a run of selections in one session. *)
Definition record_selections (cfg : Config) (session_id : string) (names : list string)
    (history : History) : History :=
  foldl (λ h name, record_selection cfg session_id name h) history names.

(** *** 4.2 Penalty Composer *)

(** Modelled from the spec: the position of the most recent occurrence,
    counted from the end; 1 is the entry appended last. *)
Definition most_recent_position (recent : list string) (name : string) : option nat :=
  (λ found, S found.1) <$> list_find (λ n, n = name) (reverse recent).

(** Modelled from the spec: [1 − 0.5 · (H − p + 1) / H], floor 0.5, and
    1.0 for an item that is not in the history. *)
Definition recency_formula (h : nat) (p : nat) : result Q :=
  ratio ← truediv (inject_Z (Z.of_nat h - Z.of_nat p + 1)) (of_nat h);
  Ok (Qmax (1 # 2) (1 - (1 # 2) * ratio)).

(** Modelled from the spec: the recency factor of an item in a session. *)
Definition recency_factor (cfg : Config) (recent : list string) (name : string)
    : result Q :=
  match most_recent_position recent name with
  | None => Ok 1
  | Some p => recency_formula (H cfg) p
  end.

(** Modelled from the spec: on how many of the three dimension buckets
    two keys differ. *)
Definition differing_buckets (a b : ClusterKey) : nat :=
  let '(a1, a2, a3, _) := a in
  let '(b1, b2, b3, _) := b in
  (if decide (a1 = b1) then 0 else 1) + (if decide (a2 = b2) then 0 else 1)
  + (if decide (a3 = b3) then 0 else 1).

(** Modelled from the spec: the 10% uplift for a candidate whose cluster
    key differs from that of the session's last selection on at least two
    dimension buckets or on the need group. *)
Definition cluster_bonus (cfg : Config) (index : gmap string ClusterKey)
    (recent : list string) (item : Cocktail) (raw : Q) : Q :=
  match last recent ≫= (λ name, index !! name), index !! Name item with
  | Some previous, Some mine =>
      if bool_decide (2 ≤ differing_buckets mine previous)%nat
         || bool_decide (mine.2 ≠ previous.2)
      then (1 # 10) * raw else 0
  | _, _ => 0
  end.

(** Modelled from the spec: the per-candidate record of section 3. *)
Record ScoreTrace := {
  trace_dimension : Q;
  trace_need : Q;
  trace_genericity : Q;
  trace_recency : Q;
  trace_cluster_bonus : Q;
  trace_adjusted : Q;
}.

(** Modelled from the spec:
    [adjusted = raw_score · genericity_factor · recency_factor + cluster_bonus]. *)
Definition score_trace (cfg : Config) (index : gmap string ClusterKey)
    (recent : list string) (profile : EmotionalProfile) (item : Cocktail)
    : result ScoreTrace :=
  d ← dimension_score profile item;
  n ← need_score profile item;
  raw ← raw_score cfg profile item;
  let genericity := calculate_universality_penalty item in
  recency ← recency_factor cfg recent (Name item);
  let bonus := cluster_bonus cfg index recent item raw in
  Ok {| trace_dimension := d; trace_need := n; trace_genericity := genericity;
        trace_recency := recency; trace_cluster_bonus := bonus;
        trace_adjusted := raw * genericity * recency + bonus |}.

(** Modelled from the spec: a catalog item with its adjusted score. *)
Definition adjusted_candidate (cfg : Config) (index : gmap string ClusterKey)
    (recent : list string) (profile : EmotionalProfile) (item : Cocktail)
    : result Candidate :=
  t ← score_trace cfg index recent profile item;
  Ok {| cocktail := item; score := trace_adjusted t |}.

(** Modelled from the spec: the stable descending sort. A candidate goes
    behind the ones with a strictly higher score and before the others. *)
Fixpoint insert_desc (c : Candidate) (l : list Candidate) : list Candidate :=
  match l with
  | [] => [c]
  | d :: l' => if Qlt_le_dec (score c) (score d) then d :: insert_desc c l' else c :: l
  end.
Definition sort_desc (l : list Candidate) : list Candidate := foldr insert_desc [] l.

(** Modelled from the spec: every catalog item scored and adjusted, then
    sorted by descending adjusted score, ties in catalog order. *)
Definition adjusted_ranking (cfg : Config) (catalog : list Cocktail)
    (history : History) (profile : EmotionalProfile) (session_id : string)
    : result (list Candidate) :=
  let recent := _get_recent_recommendations history session_id (Z.of_nat (H cfg)) in
  let index := build cfg catalog in
  scored ← for_each (adjusted_candidate cfg index recent profile) catalog;
  Ok (sort_desc scored).

(** Modelled from the spec: one request. The pool is the top [K] of the
    ranking, the draw is the agent's selector with [k = 1], and the
    chosen name is appended to the session's history. *)
Definition recommend (cfg : Config) (rng : nat → Q) (catalog : list Cocktail)
    (history : History) (profile : EmotionalProfile) (session_id : string)
    : result (Candidate * History) :=
  ranking ← adjusted_ranking cfg catalog history profile session_id;
  match take (K cfg) ranking with
  | [] => Raise NoCandidatesError
  | pool =>
      selected ← _diversity_weighted_random_select rng pool default_k;
      match selected with
      | chosen :: _ =>
          Ok (chosen, record_selection cfg session_id (Name (cocktail chosen)) history)
      | [] => Raise NoCandidatesError
      end
  end.

End Engine.

(** ** JavaScript run-time: values of [any]-typed fields, [||], [trim] *)
Module Js.

(** What a field of the JSON result can hold; [JsUndefined] is a
    missing property. *)
Inductive JsValue :=
| JsUndefined
| JsNull
| JsBool (b : bool)
| JsNumber (q : Q)
| JsString (s : string)
| JsObject.

(** ToBoolean. *)
Definition truthy (v : JsValue) : bool :=
  match v with
  | JsUndefined | JsNull => false
  | JsBool b => b
  | JsNumber q => negb (Qeq_bool q 0)
  | JsString s => negb (String.eqb s "")
  | JsObject => true
  end.

(** [a || b] *)
Definition or (a b : JsValue) : JsValue := if truthy a then a else b.

(** [o?.field] on an object that may be [null] or [undefined]. *)
Definition optional_chain {O} (o : option O) (field : O → JsValue) : JsValue :=
  match o with
  | Some obj => field obj
  | None => JsUndefined
  end.

(** A string as its UTF-16 code units. *)
Definition code_units : Type := list N.

(** WhiteSpace and LineTerminator code points of ECMAScript. *)
Definition is_white_space (c : N) : bool :=
  bool_decide (c ∈ [0x09; 0x0A; 0x0B; 0x0C; 0x0D; 0x20; 0xA0; 0x1680; 0x2028; 0x2029;
                    0x202F; 0x205F; 0x3000; 0xFEFF]%N)
  || ((0x2000 <=? c) && (c <=? 0x200A))%N.

Fixpoint trimStart (s : code_units) : code_units :=
  match s with
  | [] => []
  | c :: s' => if is_white_space c then trimStart s' else s
  end.
Definition trimEnd (s : code_units) : code_units := reverse (trimStart (reverse s)).
Definition trim (s : code_units) : code_units := trimEnd (trimStart s).

End Js.

(** ** frontend/src/components/ResultCard.tsx *)
Module ResultCard.
Import Js.

Record Layout := {
  final_card_url : JsValue;
  ink_style_image_url : JsValue;
  simplified_response : JsValue;
}.

Record Presentation := {
  final_presentation_image_url : JsValue;
  cocktail_image_url : JsValue;
  cocktail_name : JsValue;
}.

(** [ProcessingResult], restricted to what the card reads; [None] is a
    missing (or [null]) [layout] or [presentation]. *)
Record ProcessingResult := {
  layout : option Layout;
  presentation : option Presentation;
}.

Definition cardImageUrl (result : ProcessingResult) : JsValue :=
  or (or (or (or (optional_chain (layout result) final_card_url)
                 (optional_chain (layout result) ink_style_image_url))
             (optional_chain (presentation result) final_presentation_image_url))
         (optional_chain (presentation result) cocktail_image_url))
     (JsString "").

(** The [disabled] attribute of the download button. *)
Definition download_disabled (result : ProcessingResult) (isDownloading : bool) : bool :=
  isDownloading || negb (truthy (cardImageUrl result)).

Inductive DownloadStep :=
| AlertNotReady       (* alert('名片图片未准备好，请稍候再试') *)
| IgnoredClick        (* 防止重复点击 *)
| BeginDownload.      (* setIsDownloading(true), then the fetch *)

(** [handleDownload], up to the first [await]. *)
Definition handleDownload (result : ProcessingResult) (isDownloading : bool)
    : DownloadStep :=
  if negb (truthy (cardImageUrl result)) then AlertNotReady
  else if isDownloading then IgnoredClick
  else BeginDownload.

End ResultCard.

(** ** frontend/src/components/VoiceInputScreen.tsx *)
Module VoiceInputScreen.
Import Js.

Inductive InputMode := voice | text.

(** The recorded audio; only its presence matters here. *)
Definition Blob : Type := list N.

(** The values one render of the component closes over. *)
Record State := {
  isRecording : bool;
  audioBlob : option Blob;
  isUploading : bool;
  inputMode : InputMode;
  textInput : code_units;
}.

Inductive Effect :=
| AlertRecordFirst                 (* alert('请先录制音频') *)
| AlertEnterStory                  (* alert('请输入您的故事') *)
| SetIsUploading (b : bool)
| UploadAudio (recording : Blob)   (* followed by processStory(task_id) *)
| ProcessStoryText (story : code_units).

(** [handleSubmit], up to the first [await]. *)
Definition handleSubmit (s : State) : list Effect :=
  match inputMode s with
  | voice =>
      match audioBlob s with
      | None => [AlertRecordFirst]
      | Some blob => [SetIsUploading true; UploadAudio blob]
      end
  | text =>
      if bool_decide (trim (textInput s) = []) then [AlertEnterStory]
      else [SetIsUploading true; ProcessStoryText (textInput s)]
  end.

Definition canSubmit (s : State) : bool :=
  match inputMode s with
  | voice => bool_decide (is_Some (audioBlob s)) && negb (isRecording s)
  | text => (0 <? length (trim (textInput s)))%nat
  end.

(** The [disabled] attribute of the submit button. *)
Definition submit_disabled (s : State) : bool :=
  negb (canSubmit s) || isUploading s || isRecording s.

(** The button only reacts to a click while it is enabled. *)
Definition click_submit (s : State) : option (list Effect) :=
  if submit_disabled s then None else Some (handleSubmit s).

End VoiceInputScreen.

(** ** The specification's wording of three computations, for comparison *)
Module Claimed.
Import CocktailAgent Js ResultCard.
Local Open Scope Q_scope.

(** "Count how many of an item's needs fall in that set", the needs
    being a set of tags. *)
Definition common_need_tags (c : Cocktail) : nat :=
  size (list_to_set (default [] (Need c)) ∩ list_to_set COMMON_NEEDS : gset string).

Definition min_score (pool : list Candidate) : Q :=
  match pool with
  | [] => 0
  | c :: pool' => foldr (λ d m, Qmin (score d) m) (score c) pool'
  end.

(** "p_i = ε/K + (1−ε) · (score_i − min_score) / Σ_j(score_j − min_score)". *)
Definition selection_probability (ε : Q) (pool : list Candidate) (c : Candidate) : Q :=
  let K := inject_Z (Z.of_nat (length pool)) in
  let m := min_score pool in
  ε / K + (1 - ε) * (score c - m) / foldr (λ d acc, (score d - m) + acc) 0 pool.

(** "a, else b, else c, else d, else empty". *)
Definition first_available (urls : list JsValue) : JsValue :=
  default (JsString "") (snd <$> list_find (λ v, truthy v = true) urls).

End Claimed.

(** ** Notions used in the statements *)

Section EngineNotions.
Import CocktailAgent Engine.
Local Open Scope Q_scope.

(** The list kept for a session; a session never seen has the empty one. *)
Definition stored (history : History) (session_id : string) : list string :=
  default [] (history !! session_id).

(** A pool ranked by descending adjusted score. *)
Definition ranked (pool : list Candidate) : Prop :=
  StronglySorted (λ a b, score b <= score a) pool.

(** Modelled from the spec: "Candidates are sorted descending by adjusted
    score ... Ties broken by catalog insertion order". A ranking of the
    candidates is descending and holds, for every score, the candidates of
    that score in the order of the catalog. *)
Definition stable_descending (candidates ranking : list Candidate) : Prop :=
  ranked ranking
  ∧ ∀ v : Q, filter (λ c, score c == v) ranking = filter (λ c, score c == v) candidates.

(** The share of the score range that a candidate reaches, and its
    weight before normalisation, without the common factor [1 / K]. *)
Definition range_share (top bottom c : Candidate) : Q :=
  (score c - score bottom) / score_range (score top) (score bottom).

(** [0.1 + 0.9·x]: base share plus score bonus. *)
Definition draw_weight (top bottom c : Candidate) : Q :=
  (1 # 10) + (9 # 10) * range_share top bottom c.

(** The linear part of the factor, before the floor. *)
Definition linear_decay (h p : nat) : Q :=
  1 - (1 # 2) * (inject_Z (Z.of_nat h - Z.of_nat p + 1) / of_nat h).

(** The values of the three scores, for inputs on which no division fails. *)
Definition dimension_value (profile : EmotionalProfile) (item : Cocktail) : Q :=
  1 / (1 + sum_of_squares profile item).

Definition need_value (profile : EmotionalProfile) (item : Cocktail) : Q :=
  of_nat (size (needs profile ∩ need_set item)) / of_nat (Nat.max 1 (size (need_set item))).

Definition raw_value (cfg : Config) (profile : EmotionalProfile) (item : Cocktail) : Q :=
  w_dim cfg * dimension_value profile item + w_need cfg * need_value profile item.

(** The recency factor and the adjusted score as plain values, for [H > 0]. *)
Definition recency_value (cfg : Config) (recent : list string) (name : string) : Q :=
  match most_recent_position recent name with
  | None => 1
  | Some p => Qmax (1 # 2) (linear_decay (H cfg) p)
  end.

Definition adjusted_value (cfg : Config) (index : gmap string ClusterKey)
    (recent : list string) (profile : EmotionalProfile) (item : Cocktail) : Q :=
  raw_value cfg profile item * calculate_universality_penalty item
    * recency_value cfg recent (Name item)
  + cluster_bonus cfg index recent item (raw_value cfg profile item).

Definition scored (cfg : Config) (index : gmap string ClusterKey)
    (recent : list string) (profile : EmotionalProfile) (item : Cocktail) : Candidate :=
  {| cocktail := item; score := adjusted_value cfg index recent profile item |}.

(** The names of a list of candidates, to display rankings and draws. *)
Definition names_of (selected : result (list Candidate)) : result (list string) :=
  match selected with
  | Ok l => Ok ((λ c, Name (cocktail c)) <$> l)
  | Raise e => Raise e
  end.

(** The chosen name and the history after one request. *)
Definition selection (outcome : result (Candidate * History))
    : result (string * History) :=
  match outcome with
  | Ok (chosen, history') => Ok (Name (cocktail chosen), history')
  | Raise e => Raise e
  end.

End EngineNotions.

Section CardNotions.
Import Js ResultCard.

(** The four candidates for the card image, in the order of the [||] chain. *)
Definition fallback_order (result : ProcessingResult) : list JsValue :=
  [ optional_chain (layout result) final_card_url;
    optional_chain (layout result) ink_style_image_url;
    optional_chain (presentation result) final_presentation_image_url;
    optional_chain (presentation result) cocktail_image_url ].

End CardNotions.

(** ** Sample data *)

Section EngineSamples.
Import CocktailAgent Engine.
Local Open Scope Q_scope.

(** A catalog entry without payload. *)
Definition entry (name : string) (e t c : Q) (need : option (list string)) : Cocktail :=
  {| Name := name; Category := ""; Energy := e; Tension := t; Control := c;
     Need := need; Recipe := ""; Description := "" |}.

Definition all_equal : list Candidate :=
  [ {| cocktail := entry "Mojito" 3 3 3 None; score := 7 # 10 |};
    {| cocktail := entry "Negroni" 3 3 3 None; score := 7 # 10 |};
    {| cocktail := entry "Daiquiri" 3 3 3 None; score := 7 # 10 |} ].

Definition three_two_one : list Candidate :=
  [ {| cocktail := entry "Mojito" 3 3 3 None; score := 3 |};
    {| cocktail := entry "Negroni" 3 3 3 None; score := 2 |};
    {| cocktail := entry "Daiquiri" 3 3 3 None; score := 1 |} ].

(** The weights that the selector computes for [three_two_one]. *)
Definition three_two_one_probabilities : list Q :=
  match selection_probabilities three_two_one with
  | Ok ps => ps
  | Raise _ => []
  end.

Definition out_of_range : EmotionalProfile :=
  {| energy := 9; tension := 0; control := -2; needs := ∅ |}.

Definition cuba_libre : Cocktail :=
  entry "Cuba Libre" 4 2 3 (Some ["nostalgia"; "comfort"; "casual fun"]%string).

Definition energetic : EmotionalProfile :=
  {| energy := 5; tension := 1; control := 3; needs := {["energy"%string]} |}.

Definition two_cocktails : list Cocktail :=
  [ entry "A" 5 1 3 (Some ["energy"]%string);
    entry "C" 5 1 3 (Some ["energy"; "calm"]%string) ].

End EngineSamples.

Section CardSamples.
Import Js ResultCard.

Definition card_ready : ProcessingResult :=
  {| layout := Some {| final_card_url := JsString "/static/cards/42.png";
                       ink_style_image_url := JsUndefined;
                       simplified_response := JsString "cheers" |};
     presentation := None |}.

End CardSamples.

(** ** VoiceInputScreen.tsx: [handleSubmit] to its end, and the controls *)
Module SubmitFlow.
Import Js VoiceInputScreen.

(** What the [catch] block reads from a rejected request:
    [error?.response?.data?.detail] and [error?.message]. *)
Record ApiError := {
  detail : JsValue;
  message : JsValue;
}.

(** How an awaited request of [services/api.ts] ends. *)
Inductive Settled (A : Type) :=
| Resolved (a : A)
| Rejected (e : ApiError).
Arguments Resolved {A} a.
Arguments Rejected {A} e.

(** [AudioUploadResponse] and [ProcessStoryResponse], as far as they are read. *)
Record TaskResponse := { task_id : JsValue }.

(** What a resolved request hands back, [response.data]: an object, whose
    [task_id] is read ([undefined] when it has none), or [null]. *)
Definition Body : Type := option TaskResponse.

(** Reading [task_id] of [null] throws a [TypeError], which the [catch]
    block receives: it has no [response], and a message (here in V8's
    wording). *)
Definition NULL_READ : ApiError :=
  {| detail := JsUndefined;
     message := JsString "Cannot read properties of null (reading 'task_id')" |}.

Definition DEFAULT_FAILURE : string := "提交失败，请重试".

(** [error?.response?.data?.detail || error?.message || '提交失败，请重试'] *)
Definition errorMessage (e : ApiError) : JsValue :=
  or (or (detail e) (message e)) (JsString DEFAULT_FAILURE).

(** What a run of [handleSubmit] does, in order ([console.error] left out). *)
Inductive Action :=
| AlertRecord                         (* alert('请先录制音频') *)
| AlertStory                          (* alert('请输入您的故事') *)
| AlertFailed (errorMessage : JsValue)  (* alert(`提交失败: ${errorMessage}`) *)
| SetUploading (b : bool)
| UploadAudioRequest (recording : Blob)
| ProcessStoryRequest (audio_url : JsValue) (text : option code_units)
| RecordingComplete (taskId : JsValue).

(** The [catch] and [finally] blocks. *)
Definition failed (e : ApiError) : list Action :=
  [AlertFailed (errorMessage e); SetUploading false].

(** From the answer of [processStory] to the end. *)
Definition after_process (process : Settled Body) : list Action :=
  match process with
  | Resolved (Some processResponse) =>
      [RecordingComplete (task_id processResponse); SetUploading false]
  | Resolved None => failed NULL_READ
  | Rejected e => failed e
  end.

(** [handleSubmit] on the state [s] of the render, given how [uploadAudio]
    and [processStory] end when they are called. The argument of
    [processStory] is evaluated before the call: with a [null] answer of
    the upload no second request is made. [onRecordingComplete] is the
    callback of [App.tsx], two state updates, which does not throw. *)
Definition handleSubmit_run (s : State) (upload process : Settled Body)
    : list Action :=
  match inputMode s with
  | voice =>
      match audioBlob s with
      | None => [AlertRecord]
      | Some blob =>
          SetUploading true :: UploadAudioRequest blob ::
          match upload with
          | Resolved (Some uploadResponse) =>
              ProcessStoryRequest (task_id uploadResponse) None :: after_process process
          | Resolved None => failed NULL_READ
          | Rejected e => failed e
          end
      end
  | text =>
      if bool_decide (trim (textInput s) = []) then [AlertStory]
      else SetUploading true :: ProcessStoryRequest JsUndefined (Some (textInput s))
             :: after_process process
  end.

(** What can change the state of the component. The recorder hook is not
    part of the sources: its updates of [isRecording] and [audioBlob] are
    arbitrary, and so is the moment [setIsUploading] takes effect. *)
Inductive Event :=
| ClickVoiceMode
| ClickTextMode
| ChangeText (value : code_units)
| RecorderUpdate (recording : bool) (blob : option Blob)
| UploadingUpdate (uploading : bool).

(** A mode button is disabled while uploading or recording; the textarea
    exists in text mode only and is disabled while uploading. An event on
    a control that is disabled or not rendered gives [None]. *)
Definition handle (s : State) (e : Event) : option State :=
  match e with
  | ClickVoiceMode =>
      if isUploading s || isRecording s then None
      else Some {| isRecording := isRecording s; audioBlob := audioBlob s;
                   isUploading := isUploading s; inputMode := voice; textInput := [] |}
  | ClickTextMode =>
      if isUploading s || isRecording s then None
      else Some {| isRecording := isRecording s; audioBlob := audioBlob s;
                   isUploading := isUploading s; inputMode := text;
                   textInput := textInput s |}
  | ChangeText value =>
      match inputMode s with
      | text =>
          if isUploading s then None
          else Some {| isRecording := isRecording s; audioBlob := audioBlob s;
                       isUploading := isUploading s; inputMode := text;
                       textInput := value |}
      | voice => None
      end
  | RecorderUpdate recording blob =>
      Some {| isRecording := recording; audioBlob := blob;
              isUploading := isUploading s; inputMode := inputMode s;
              textInput := textInput s |}
  | UploadingUpdate uploading =>
      Some {| isRecording := isRecording s; audioBlob := audioBlob s;
              isUploading := uploading; inputMode := inputMode s;
              textInput := textInput s |}
  end.

(** The first render: [useState(false)], [useState('voice')], [useState('')]. *)
Definition mounted (recording : bool) (blob : option Blob) : State :=
  {| isRecording := recording; audioBlob := blob; isUploading := false;
     inputMode := voice; textInput := [] |}.

(** The task that a run hands to [onRecordingComplete]: the one that
    [processStory] answers with, when every request of the run resolves
    with an object. *)
Definition completed_task (s : State) (upload process : Settled Body)
    : option JsValue :=
  match inputMode s, upload, process with
  | voice, Resolved (Some _), Resolved (Some processResponse) =>
      Some (task_id processResponse)
  | text, _, Resolved (Some processResponse) => Some (task_id processResponse)
  | _, _, _ => None
  end.

(** What a run reports: its alerts and its calls of [onRecordingComplete],
    in order. *)
Definition is_report (a : Action) : bool :=
  match a with
  | AlertRecord | AlertStory | AlertFailed _ | RecordingComplete _ => true
  | SetUploading _ | UploadAudioRequest _ | ProcessStoryRequest _ _ => false
  end.

Definition reports (run : list Action) : list Action :=
  filter (λ a, is_report a = true) run.

Inductive reachable : State → Prop :=
| reachable_mounted recording blob : reachable (mounted recording blob)
| reachable_handle s e s' : reachable s → handle s e = Some s' → reachable s'.

End SubmitFlow.

(** ** ResultCard.tsx: [handleDownload] to its end *)
Module DownloadFlow.
Import Js ResultCard.

Definition DEFAULT_API_BASE_URL : string := "http://localhost:8000".

(** [import.meta.env.VITE_API_BASE_URL || 'http://localhost:8000'];
    the variable is a string or is not set. *)
Definition api_base (VITE_API_BASE_URL : option string) : string :=
  match VITE_API_BASE_URL with
  | Some base => if String.eqb base "" then DEFAULT_API_BASE_URL else base
  | None => DEFAULT_API_BASE_URL
  end.

(** [cardImageUrl.startsWith('http') ? cardImageUrl : `${base}${cardImageUrl}`] *)
Definition fullUrl (VITE_API_BASE_URL : option string) (cardImageUrl : string) : string :=
  if String.prefix "http" cardImageUrl then cardImageUrl
  else api_base VITE_API_BASE_URL ++ cardImageUrl.

(** [result.presentation?.cocktail_name || '心灵之酒'] *)
Definition cocktailName (result : ProcessingResult) : JsValue :=
  or (optional_chain (presentation result) cocktail_name) (JsString "心灵之酒").

(** How [fetch] and [response.blob()] end: the request is rejected, or a
    response arrives with its [ok] flag and a body that can or cannot be
    read. *)
Inductive Fetched :=
| NetworkError
| Response (ok : bool) (body_read : bool).

(** What a run of [handleDownload] does, in order ([console.error] and
    the later [revokeObjectURL] left out). *)
Inductive Action :=
| AlertNotReady                    (* alert('名片图片未准备好，请稍候再试') *)
| AlertDownloadFailed              (* alert(`下载失败: ...`) *)
| SetDownloading (b : bool)
| FetchRequest (url : string)
| ClickDownloadLink (name : JsValue). (* link.download = `${cocktailName}_名片.png` *)

(** [handleDownload], given how the fetch ends. A card URL that is not a
    string has no [startsWith]: the [TypeError] lands in the [catch]. *)
Definition handleDownload_run (VITE_API_BASE_URL : option string)
    (result : ProcessingResult) (isDownloading : bool) (fetched : Fetched)
    : list Action :=
  if negb (truthy (cardImageUrl result)) then [AlertNotReady]
  else if isDownloading then []
  else
    SetDownloading true ::
    match cardImageUrl result with
    | JsString url =>
        FetchRequest (fullUrl VITE_API_BASE_URL url) ::
        match fetched with
        | Response true true => [ClickDownloadLink (cocktailName result); SetDownloading false]
        | _ => [AlertDownloadFailed; SetDownloading false]
        end
    | _ => [AlertDownloadFailed; SetDownloading false]
    end.

End DownloadFlow.

(** ** App.tsx *)
Module App.
Import ResultCard.

(** ['welcome' | 'voice' | 'loading' | 'result'] *)
Inductive Screen := ScreenWelcome | ScreenVoice | ScreenLoading | ScreenResult.

Record AppState := {
  currentScreen : Screen;
  taskId : string;
  result : option ProcessingResult;
}.

(** [useState('welcome')], [useState('')], [useState(null)] *)
Definition initial : AppState :=
  {| currentScreen := ScreenWelcome; taskId := ""; result := None |}.

Definition handleStart (s : AppState) : AppState :=
  {| currentScreen := ScreenVoice; taskId := taskId s; result := result s |}.

Definition handleBack (s : AppState) : AppState :=
  {| currentScreen := ScreenWelcome; taskId := taskId s; result := result s |}.

Definition handleRecordingComplete (newTaskId : string) (s : AppState) : AppState :=
  {| currentScreen := ScreenLoading; taskId := newTaskId; result := result s |}.

Definition handleLoadingComplete (processingResult : ProcessingResult) (s : AppState)
    : AppState :=
  {| currentScreen := ScreenResult; taskId := taskId s; result := Some processingResult |}.

Definition handleRestart (s : AppState) : AppState :=
  {| currentScreen := ScreenWelcome; taskId := ""; result := None |}.

(** The callbacks that the child components receive. A request that is
    still awaited when its screen is left calls back later, so no order
    is imposed on them. *)
Inductive Callback :=
| onStart
| onBack
| onRecordingComplete (newTaskId : string)
| onComplete (processingResult : ProcessingResult)
| onRestart.

Definition call (s : AppState) (c : Callback) : AppState :=
  match c with
  | onStart => handleStart s
  | onBack => handleBack s
  | onRecordingComplete newTaskId => handleRecordingComplete newTaskId s
  | onComplete processingResult => handleLoadingComplete processingResult s
  | onRestart => handleRestart s
  end.

Definition run (calls : list Callback) : AppState := foldl call initial calls.



End App.

(** ** Further notions used in the statements *)
Section SelectorNotions.
Import CocktailAgent.
Local Open Scope Q_scope.

(** The same candidate with the score [a · score + b]. *)
Definition rescale (a b : Q) (c : Candidate) : Candidate :=
  {| cocktail := cocktail c; score := a * score c + b |}.

(** A cocktail dict with another ['Need'] list. *)
Definition with_needs (c : Cocktail) (needs : list string) : Cocktail :=
  {| Name := Name c; Category := Category c; Energy := Energy c; Tension := Tension c;
     Control := Control c; Need := Some needs; Recipe := Recipe c;
     Description := Description c |}.

(** How many entries the generator expression counts. *)
Definition counted (needs : list string) : nat :=
  length (filter (λ need, lower need ∈ COMMON_NEEDS) needs).

End SelectorNotions.

Section ScreenSamples.
Import Js VoiceInputScreen SubmitFlow.

(** A recording that has been stopped, and a typed story with white
    space around it. *)
Definition recorded : State :=
  {| isRecording := false; audioBlob := Some [0x1A; 0x45; 0xDF; 0xA3]%N;
     isUploading := false; inputMode := voice; textInput := [] |}.

Definition typed : State :=
  {| isRecording := false; audioBlob := None; isUploading := false;
     inputMode := text; textInput := [0x20; 0x4ECA; 0x5929; 0x0A]%N |}.

Definition task_42 : Settled Body := Resolved (Some {| task_id := JsString "42" |}).

Definition timed_out : Settled Body :=
  Rejected {| detail := JsUndefined; message := JsString "timeout of 30000ms exceeded" |}.

End ScreenSamples.

Section AppNotions.
Import ResultCard App.


End AppNotions.

(* ===================================================================== *)
(** * Part II: properties                                                 *)
(* ===================================================================== *)

(** ** Python run-time *)
Section PyFacts.
Local Open Scope Q_scope.

Lemma slice_from_suffix {A} (start : Z) (l : list A) : slice_from start l `suffix_of` l.
Proof. unfold slice_from. apply suffix_drop. Qed.

(** [l[-n:]] keeps the last [n] entries when [n] is positive. *)
Lemma slice_last_drop {A} (n : nat) (l : list A) :
  (0 < n)%nat → slice_from (- Z.of_nat n) l = drop (length l - n) l.
Proof.
  intros Hn. unfold slice_from.
  destruct (Z.ltb_spec (- Z.of_nat n) 0); [|lia].
  f_equal. lia.
Qed.

(** [l[-0:]] is the whole list. *)
Lemma slice_last_zero {A} (l : list A) : slice_from (- 0) l = l.
Proof. unfold slice_from. simpl. by rewrite Z.min_l, drop_0 by lia. Qed.

Lemma sum_from (acc : Q) (xs : list Q) : foldl Qplus acc xs == acc + sum xs.
Proof.
  unfold sum. revert acc.
  induction xs as [|x xs IH] using rev_ind; intros acc; simpl; [lra|].
  rewrite !foldl_app. simpl. rewrite IH. lra.
Qed.

Lemma sum_cons (x : Q) (xs : list Q) : sum (x :: xs) == x + sum xs.
Proof. unfold sum at 1. simpl. rewrite sum_from. lra. Qed.

Lemma sum_nil : sum [] == 0.
Proof. reflexivity. Qed.

Lemma for_each_ok {A B} (f : A → result B) (g : A → B) (xs : list A) :
  (∀ x, x ∈ xs → f x = Ok (g x)) → for_each f xs = Ok (g <$> xs).
Proof.
  induction xs as [|x xs IH]; intros Hf; simpl; [done|].
  rewrite (Hf x) by left. simpl.
  rewrite IH; [done|]. intros y Hy. apply Hf. by right.
Qed.

Lemma truediv_ok (a b : Q) : ¬ b == 0 → truediv a b = Ok (a / b).
Proof.
  intros Hb. unfold truediv.
  destruct (Qeq_bool b 0) eqn:E; [|done].
  by apply Qeq_bool_eq in E.
Qed.

(** *** [random.choices]: which index a random number selects *)

Lemma half_between (lo hi : nat) : (lo < hi)%nat → (lo ≤ (lo + hi) / 2 < hi)%nat.
Proof.
  intros Hlt.
  pose proof (Nat.div_mod_eq (lo + hi) 2) as Hdiv.
  pose proof (Nat.mod_upper_bound (lo + hi) 2) as Hmod. lia.
Qed.

(** On a list that is non-decreasing below [bound], the binary search
    returns the first index in [[lo, hi)] whose entry exceeds [x]. *)
Lemma bisect_loop_spec (a : list Q) (x : Q) (bound : nat) :
  (∀ i j, (i ≤ j < bound)%nat → nth i a 0 <= nth j a 0) →
  ∀ fuel lo hi, (hi - lo ≤ fuel)%nat → (lo ≤ hi ≤ bound)%nat →
    (lo ≤ bisect_loop fuel a x lo hi ≤ hi)%nat
    ∧ (∀ j, (lo ≤ j < bisect_loop fuel a x lo hi)%nat → nth j a 0 <= x)
    ∧ (∀ j, (bisect_loop fuel a x lo hi ≤ j < hi)%nat → x < nth j a 0).
Proof.
  intros Hmono. induction fuel as [|fuel IH]; intros lo hi Hfuel Hb; cbn [bisect_loop].
  { split; [lia|]. split; intros j Hj; lia. }
  destruct (Nat.ltb_spec lo hi) as [Hlt|Hge]; cycle 1.
  { split; [lia|]. split; intros j Hj; lia. }
  pose proof (half_between lo hi Hlt) as Hmid.
  set (mid := ((lo + hi) / 2)%nat) in *.
  destruct (Qlt_le_dec x (nth mid a 0)) as [Hx|Hx].
  - destruct (IH lo mid) as (Hr & Hlow & Hhigh); [lia|lia|].
    split; [lia|]. split; [done|].
    intros j Hj. destruct (decide (j < mid)%nat) as [Hjm|Hjm].
    + apply Hhigh. lia.
    + eapply Qlt_le_trans; [exact Hx|]. apply Hmono. lia.
  - destruct (IH (S mid) hi) as (Hr & Hlow & Hhigh); [lia|lia|].
    split; [lia|]. split; [|done].
    intros j Hj. destruct (decide (mid < j)%nat) as [Hjm|Hjm].
    + apply Hlow. lia.
    + eapply Qle_trans; [|exact Hx]. apply Hmono. lia.
Qed.

Lemma length_accumulate_from (acc : Q) (ws : list Q) :
  length (accumulate_from acc ws) = length ws.
Proof. revert acc. induction ws as [|w ws IH]; intros acc; simpl; [done|]. by rewrite IH. Qed.

Lemma length_accumulate (ws : list Q) : length (accumulate ws) = length ws.
Proof. destruct ws; simpl; [done|]. by rewrite length_accumulate_from. Qed.

Lemma sum_take_S (w : Q) (ws : list Q) (i : nat) :
  sum (take (S i) (w :: ws)) == w + sum (take i ws).
Proof. simpl. apply sum_cons. Qed.

Lemma nth_accumulate_from (acc : Q) (ws : list Q) (i : nat) :
  (i < length ws)%nat → nth i (accumulate_from acc ws) 0 == acc + sum (take (S i) ws).
Proof.
  revert acc i. induction ws as [|w ws IH]; intros acc i Hi; simpl in Hi; [lia|].
  destruct i as [|i].
  - simpl. rewrite sum_cons, sum_nil. lra.
  - cbn [accumulate_from nth]. rewrite IH by lia. rewrite (sum_take_S w ws (S i)). lra.
Qed.

(** Entry [i] of the running totals is the sum of the first [i + 1] weights. *)
Lemma nth_accumulate (ws : list Q) (i : nat) :
  (i < length ws)%nat → nth i (accumulate ws) 0 == sum (take (S i) ws).
Proof.
  destruct ws as [|w ws]; [simpl; lia|]. intros Hi. cbn [length] in Hi.
  destruct i as [|i].
  - simpl. rewrite sum_cons, sum_nil. lra.
  - cbn [accumulate nth]. rewrite nth_accumulate_from by lia.
    by rewrite (sum_take_S w ws (S i)).
Qed.

Lemma sum_take_mono (ws : list Q) (i j : nat) :
  Forall (λ w, 0 <= w) ws → (i ≤ j)%nat → sum (take i ws) <= sum (take j ws).
Proof.
  intros Hpos. revert i j. induction Hpos as [|w ws Hw _ IH]; intros i j Hij.
  { rewrite !take_nil. lra. }
  destruct i as [|i], j as [|j]; try lia.
  - simpl. lra.
  - rewrite take_0, sum_nil, sum_take_S.
    pose proof (IH 0%nat j ltac:(lia)) as Hj. rewrite take_0, sum_nil in Hj. lra.
  - rewrite !sum_take_S. pose proof (IH i j ltac:(lia)). lra.
Qed.

(** With non-negative weights of positive total, a random number [u] in
    [[0, 1)] selects the entry [i] whose span of the cumulative weights
    contains [u · total]; the span is as long as the weight of [i]. *)
Lemma choices_one_by_interval {A} (rng : nat → Q) (population : list A) (ws : list Q) :
  length ws = length population → Forall (λ w, 0 <= w) ws → 0 < sum ws →
  0 <= rng 0%nat → rng 0%nat < 1 →
  ∃ i c, population !! i = Some c
         ∧ choices rng population ws 1 = Ok [c]
         ∧ sum (take i ws) <= rng 0%nat * sum ws
         ∧ rng 0%nat * sum ws < sum (take (S i) ws).
Proof.
  intros Hlen Hpos Htotal Hu0 Hu1.
  assert (0 < length ws)%nat as Hn.
  { destruct ws; [|simpl; lia]. rewrite sum_nil in Htotal. lra. }
  unfold choices. rewrite length_accumulate, Hlen, Nat.eqb_refl. cbn [negb].
  rewrite last_lookup, length_accumulate.
  destruct (accumulate ws !! pred (length ws)) as [total|] eqn:Hlast; cycle 1.
  { apply lookup_ge_None in Hlast. rewrite length_accumulate in Hlast. lia. }
  assert (total == sum ws) as Htot.
  { rewrite <- (nth_lookup_Some _ _ 0 _ Hlast), nth_accumulate by lia.
    rewrite take_ge by lia. reflexivity. }
  destruct (Qle_bool total 0) eqn:Hle.
  { apply Qle_bool_iff in Hle. lra. }
  change (seq 0 1) with [0%nat]. cbn [for_each]. unfold bisect, subscript.
  set (x := rng 0%nat * total).
  assert (∀ i j, (i ≤ j < length ws)%nat
                 → nth i (accumulate ws) 0 <= nth j (accumulate ws) 0) as Hmono.
  { intros i j Hij. rewrite !nth_accumulate by lia. apply sum_take_mono; [done|lia]. }
  destruct (bisect_loop_spec (accumulate ws) x (length ws) Hmono
              (length population - 1 - 0) 0%nat (length population - 1)%nat)
    as (Hr & Hlow & Hhigh); [lia|lia|].
  set (r := bisect_loop (length population - 1 - 0) (accumulate ws) x 0
              (length population - 1)) in *.
  destruct (lookup_lt_is_Some_2 population r) as [c Hc]; [lia|].
  exists r, c. split; [done|]. split; [by rewrite Hc|].
  assert (x == rng 0%nat * sum ws) as Hx by (unfold x; by rewrite Htot).
  rewrite <- Hx. split.
  - destruct r as [|r'] eqn:Er.
    + rewrite take_0, sum_nil. unfold x. apply Qmult_le_0_compat; lra.
    + rewrite <- nth_accumulate by lia. apply Hlow. lia.
  - destruct (decide (r < length population - 1)%nat) as [Hlt|Hlast'].
    + rewrite <- nth_accumulate by lia. apply Hhigh. lia.
    + rewrite take_ge by lia. rewrite Hx.
      assert (rng 0%nat * sum ws < 1 * sum ws) by (apply Qmult_lt_compat_r; lra). lra.
Qed.

End PyFacts.

(** ** Genericity penalty *)
Section Genericity.
Import CocktailAgent.

Lemma count_ones (acc : Z) {A} (l : list A) :
  foldl Z.add acc ((λ _, 1%Z) <$> l) = (acc + Z.of_nat (length l))%Z.
Proof.
  revert acc. induction l as [|x l IH]; intros acc; simpl; [lia|].
  rewrite IH. lia.
Qed.

Lemma is_common_spec (need : string) : is_common need = true ↔ lower need ∈ COMMON_NEEDS.
Proof. unfold is_common. by rewrite bool_decide_eq_true. Qed.

(** The generator expression counts the entries whose lower-cased text
    is a common need. *)
Lemma common_count_filter (needs : list string) :
  common_count needs
  = Z.of_nat (length (filter (λ need, lower need ∈ COMMON_NEEDS) needs)).
Proof.
  unfold common_count. rewrite count_ones, Z.add_0_l. do 2 f_equal.
  induction needs as [|x l IH]; [done|].
  rewrite !filter_cons.
  destruct (decide (is_common x = true)) as [Hc|Hc];
    destruct (decide (lower x ∈ COMMON_NEEDS)) as [Hl|Hl].
  - by rewrite IH.
  - by apply is_common_spec in Hc.
  - by apply is_common_spec in Hl.
  - done.
Qed.

(** For duplicate-free lower-case tags (the specification's tag sets)
    this is the size of the intersection with the common set. *)
Lemma common_count_as_set (c : Cocktail) :
  NoDup (default [] (Need c)) →
  Forall (λ need, lower need = need) (default [] (Need c)) →
  common_count (default [] (Need c)) = Z.of_nat (Claimed.common_need_tags c).
Proof.
  rewrite common_count_filter. unfold Claimed.common_need_tags.
  generalize (default [] (Need c)). intros l Hnd Hlow. f_equal.
  assert (list_to_set l ∩ list_to_set COMMON_NEEDS
          = (list_to_set (filter (λ need, lower need ∈ COMMON_NEEDS) l) : gset string))
    as ->.
  { apply set_eq. intros x.
    rewrite elem_of_intersection, !elem_of_list_to_set, list_elem_of_filter.
    rewrite Forall_forall in Hlow. split.
    - intros [Hx Hc]. split; [|done]. by rewrite Hlow.
    - intros [Hc Hx]. split; [done|]. by rewrite <- (Hlow x Hx). }
  rewrite size_list_to_set; [done|]. by apply NoDup_filter.
Qed.

(** C2. The genericity factor of a catalog item, whose needs are a set of
    lower-case tags, is fixed by the number of these tags that fall in the
    common-need set: none gives 1.0, exactly one gives 0.9, two or more
    give 0.75. *)
Theorem universality_penalty_by_common_tags (c : Cocktail) :
  NoDup (default [] (Need c)) →
  Forall (λ need, lower need = need) (default [] (Need c)) →
  calculate_universality_penalty c =
    match Claimed.common_need_tags c with
    | 0%nat => 1%Q
    | 1%nat => (9 # 10)%Q
    | _ => (75 # 100)%Q
    end.
Proof.
  intros Hnd Hlow. unfold calculate_universality_penalty.
  rewrite common_count_as_set by done.
  destruct (Claimed.common_need_tags c) as [|[|n]]; [done..|].
  destruct (Z.leb_spec 2 (Z.of_nat (S (S n)))); [done|lia].
Qed.

Lemma universality_penalty_by_common_tags_witness :
  NoDup (default [] (Need cuba_libre))
  ∧ Forall (λ need, lower need = need) (default [] (Need cuba_libre))
  ∧ Claimed.common_need_tags cuba_libre = 2%nat
  ∧ calculate_universality_penalty cuba_libre = (75 # 100)%Q.
Proof.
  assert (NoDup (default [] (Need cuba_libre))) as Hnd
    by (apply (bool_decide_unpack _); vm_compute; exact I).
  assert (Forall (λ need, lower need = need) (default [] (Need cuba_libre))) as Hlow
    by (repeat constructor).
  assert (Claimed.common_need_tags cuba_libre = 2%nat) as Hcount
    by (vm_compute; reflexivity).
  split; [exact Hnd|]. split; [exact Hlow|]. split; [exact Hcount|].
  rewrite (universality_penalty_by_common_tags cuba_libre Hnd Hlow), Hcount.
  reflexivity.
Defined.

(** Without the two conditions the factor follows the count that the code
    takes: entries are compared in lower case and repeated entries count
    again. *)
Lemma universality_penalty_by_count (c : Cocktail) :
  calculate_universality_penalty c =
    match length (filter (λ need, lower need ∈ COMMON_NEEDS) (default [] (Need c))) with
    | 0%nat => 1%Q
    | 1%nat => (9 # 10)%Q
    | _ => (75 # 100)%Q
    end.
Proof.
  unfold calculate_universality_penalty. rewrite common_count_filter.
  destruct (length _) as [|[|n]]; [done..|].
  destruct (Z.leb_spec 2 (Z.of_nat (S (S n)))); [done|lia].
Qed.

Example mixed_case_and_repeated_tags :
  calculate_universality_penalty (entry "x" 3 3 3 (Some ["Comfort"; "EASE"]%string))
    = (75 # 100)%Q
  ∧ calculate_universality_penalty (entry "y" 3 3 3 (Some ["comfort"; "comfort"]%string))
    = (75 # 100)%Q
  ∧ calculate_universality_penalty (entry "z" 3 3 3 None) = 1%Q.
Proof. split_and!; vm_compute; reflexivity. Qed.

End Genericity.

(** ** Session history *)
Section SessionHistory.
Import CocktailAgent Engine.

(** What the agent reads back is a suffix of what is stored, for every limit. *)
Lemma recent_suffix (history : History) (session_id : string) (limit : Z) :
  _get_recent_recommendations history session_id limit `suffix_of` stored history session_id.
Proof. apply slice_from_suffix. Qed.

Lemma recent_length (history : History) (session_id : string) (limit : Z) :
  (0 < limit)%Z →
  length (_get_recent_recommendations history session_id limit) ≤ Z.to_nat limit.
Proof.
  intros Hl. unfold _get_recent_recommendations.
  replace limit with (Z.of_nat (Z.to_nat limit)) at 1 by lia.
  rewrite slice_last_drop by lia. rewrite length_drop. lia.
Qed.

(** With a limit of 0 the slice [[-0:]] does not cut anything. *)
Lemma recent_limit_zero (history : History) (session_id : string) :
  _get_recent_recommendations history session_id 0 = stored history session_id.
Proof. apply slice_last_zero. Qed.

Lemma recent_of_bounded (history : History) (session_id : string) (h : nat) :
  length (stored history session_id) ≤ h →
  _get_recent_recommendations history session_id (Z.of_nat h) = stored history session_id.
Proof.
  intros Hb. destruct h as [|h]; [apply recent_limit_zero|].
  unfold _get_recent_recommendations. rewrite slice_last_drop by lia.
  fold (stored history session_id).
  replace (length (stored history session_id) - S h) with 0 by lia.
  apply drop_0.
Qed.

Lemma stored_record_selection cfg session_id name history :
  stored (record_selection cfg session_id name history) session_id
  = drop (length (stored history session_id ++ [name]) - H cfg)
         (stored history session_id ++ [name]).
Proof. unfold stored, record_selection. by rewrite lookup_insert_eq. Qed.

Lemma stored_record_selection_other cfg session_id other name history :
  session_id ≠ other →
  stored (record_selection cfg session_id name history) other = stored history other.
Proof. intros Hne. unfold stored, record_selection. by rewrite lookup_insert_ne. Qed.

(** Evicting after every append keeps the same entries as evicting once
    at the end. *)
Lemma drop_excess_app {A} (h : nat) (l m : list A) :
  drop (length (drop (length l - h) l ++ m) - h) (drop (length l - h) l ++ m)
  = drop (length (l ++ m) - h) (l ++ m).
Proof.
  rewrite !length_app, length_drop.
  destruct (decide (length l ≤ h)) as [Hle|Hgt].
  { replace (length l - h) with 0 by lia. rewrite drop_0. f_equal. lia. }
  destruct (decide (length m ≤ h)) as [Hm|Hm].
  - rewrite !drop_app_le by (rewrite ?length_drop; lia).
    rewrite drop_drop. do 2 f_equal. lia.
  - rewrite !drop_app_ge by (rewrite ?length_drop; lia).
    rewrite length_drop. f_equal. lia.
Qed.

Lemma stored_record_selections cfg session_id names history :
  length (stored history session_id) ≤ H cfg →
  stored (record_selections cfg session_id names history) session_id
  = drop (length (stored history session_id ++ names) - H cfg)
         (stored history session_id ++ names).
Proof.
  intros Hb. unfold record_selections.
  induction names as [|name names IH] using rev_ind.
  - simpl. rewrite app_nil_r.
    replace (length (stored history session_id) - H cfg) with 0 by lia.
    by rewrite drop_0.
  - rewrite foldl_app. simpl. rewrite stored_record_selection, IH.
    rewrite (assoc_L (++)). apply drop_excess_app.
Qed.

(** C3. Starting from a history within the bound [H], any number of
    selections in a session leaves at most [H] stored names: they are the
    last [H] of everything recorded, the oldest ones being dropped from
    the front, and the agent reads back exactly those. In particular
    this holds after [H + 5] selections. *)
Theorem session_history_bounded cfg session_id (names : list string) (history : History) :
  length (stored history session_id) ≤ H cfg →
  let history' := record_selections cfg session_id names history in
  let all := stored history session_id ++ names in
  length (stored history' session_id) ≤ H cfg
  ∧ stored history' session_id = drop (length all - H cfg) all
  ∧ _get_recent_recommendations history' session_id (Z.of_nat (H cfg))
    = stored history' session_id.
Proof.
  intros Hb history' all.
  assert (stored history' session_id = drop (length all - H cfg) all) as Hst
    by by apply stored_record_selections.
  assert (length (stored history' session_id) ≤ H cfg) as Hlen
    by (rewrite Hst, length_drop; lia).
  split_and!; [done..|]. by apply recent_of_bounded.
Qed.

Lemma session_history_bounded_witness :
  let names :=
    ["a"; "b"; "c"; "d"; "e"; "f"; "g"; "h"; "i"; "j"; "k"; "l"; "m"; "n"; "o"]%string in
  let history' := record_selections default_config "s" names ∅ in
  length (stored ∅ "s") ≤ H default_config
  ∧ length (stored history' "s") ≤ H default_config
  ∧ stored history' "s" = drop (length (stored ∅ "s" ++ names) - H default_config)
                               (stored ∅ "s" ++ names).
Proof.
  intros names history'.
  assert (length (stored ∅ "s") ≤ H default_config) as Hb by (vm_compute; lia).
  split; [exact Hb|].
  pose proof (session_history_bounded default_config "s" names ∅ Hb) as (Hlen & Hst & _).
  split; [exact Hlen | exact Hst].
Defined.

(** After [H + 5 = 15] selections in a fresh session with the default
    bound, the first five names are gone. *)
Example fifteen_selections :
  stored (record_selections default_config "s"
            ["a"; "b"; "c"; "d"; "e"; "f"; "g"; "h"; "i"; "j"; "k"; "l"; "m"; "n"; "o"] ∅) "s"
  = ["f"; "g"; "h"; "i"; "j"; "k"; "l"; "m"; "n"; "o"]%string.
Proof. vm_compute. reflexivity. Qed.

End SessionHistory.

(** ** The selector *)
Section Selector.
Import CocktailAgent.
Local Open Scope Q_scope.

Lemma score_range_pos (max_score min_score : Q) : 0 < score_range max_score min_score.
Proof. unfold score_range. destruct (Qlt_le_dec min_score max_score); lra. Qed.

Lemma of_nat_pos (n : nat) : (0 < n)%nat → 0 < inject_Z (Z.of_nat n).
Proof. intros Hn. change 0 with (inject_Z 0). rewrite <- Zlt_Qlt. lia. Qed.

Lemma of_nat_S (n : nat) : inject_Z (Z.of_nat (S n)) == 1 + inject_Z (Z.of_nat n).
Proof. rewrite Nat2Z.inj_succ, <- Z.add_1_l, inject_Z_plus. reflexivity. Qed.

Lemma unnormalized_as_weight (n : nat) (top bottom c : Candidate) :
  (0 < n)%nat →
  unnormalized_probability n (score bottom) (score_range (score top) (score bottom)) c
  == draw_weight top bottom c / inject_Z (Z.of_nat n).
Proof.
  intros Hn. unfold unnormalized_probability, draw_weight, range_share.
  pose proof (of_nat_pos n Hn). pose proof (score_range_pos (score top) (score bottom)).
  field. split; lra.
Qed.

Lemma sum_fmap_ext {A} (f g : A → Q) (l : list A) :
  (∀ x, x ∈ l → f x == g x) → sum (f <$> l) == sum (g <$> l).
Proof.
  induction l as [|x l IH]; intros Hfg; [reflexivity|].
  rewrite !fmap_cons, !sum_cons, IH, (Hfg x) by (try left; intros; apply Hfg; by right).
  reflexivity.
Qed.

Lemma sum_fmap_div {A} (f : A → Q) (d : Q) (l : list A) :
  sum ((λ x, f x / d) <$> l) == sum (f <$> l) / d.
Proof.
  induction l as [|x l IH]; [vm_compute; reflexivity|].
  rewrite !fmap_cons, !sum_cons, IH. unfold Qdiv. ring.
Qed.

Lemma sum_fmap_bounds {A} (f : A → Q) (lo hi : Q) (l : list A) :
  (∀ x, x ∈ l → lo <= f x <= hi) →
  lo * inject_Z (Z.of_nat (length l)) <= sum (f <$> l)
  ∧ sum (f <$> l) <= hi * inject_Z (Z.of_nat (length l)).
Proof.
  induction l as [|x l IH]; intros Hf.
  - rewrite fmap_nil, sum_nil. cbn [length]. change (inject_Z (Z.of_nat 0)) with 0. lra.
  - rewrite fmap_cons, sum_cons. cbn [length]. rewrite of_nat_S.
    destruct IH as [IH1 IH2]; [intros; apply Hf; by right|].
    destruct (Hf x) as [H1 H2]; [left|]. split; lra.
Qed.

(** In a ranked pool the first score is the largest and the last one
    the smallest. *)
Lemma ranked_extremes (pool : list Candidate) (top bottom c : Candidate) :
  ranked pool → head pool = Some top → last pool = Some bottom → c ∈ pool →
  score bottom <= score c <= score top.
Proof.
  intros Hr Htop Hbot Hc. split.
  - clear Htop. induction Hr as [|x l Hl IH Hx]; [by inversion Hc|].
    destruct l as [|y l].
    + simpl in Hbot. apply list_elem_of_singleton in Hc. simplify_eq. lra.
    + rewrite last_cons_cons in Hbot.
      apply elem_of_cons in Hc as [->|Hc]; [|by apply IH].
      rewrite Forall_forall in Hx. apply Hx. by apply last_Some_elem_of.
  - destruct Hr as [|x l Hl Hx]; [done|]. simpl in Htop. simplify_eq.
    apply elem_of_cons in Hc as [->|Hc]; [lra|].
    rewrite Forall_forall in Hx. by apply Hx.
Qed.

Lemma range_share_bounds (top bottom c : Candidate) :
  score bottom <= score c <= score top → 0 <= range_share top bottom c <= 1.
Proof.
  intros [Hlo Hhi]. unfold range_share, score_range.
  destruct (Qlt_le_dec (score bottom) (score top)) as [Hlt|Hge].
  - split.
    + apply Qle_shift_div_l; lra.
    + apply Qle_shift_div_r; lra.
  - assert (score c - score bottom == 0) as -> by lra.
    unfold Qdiv. rewrite Qmult_0_l. lra.
Qed.

Lemma draw_weight_bounds (top bottom c : Candidate) :
  score bottom <= score c <= score top → 1 # 10 <= draw_weight top bottom c <= 1.
Proof.
  intros Hc. apply range_share_bounds in Hc. unfold draw_weight. lra.
Qed.

(** The normalised list [probabilities], in closed form. *)
Lemma selection_probabilities_weights (pool : list Candidate) (top bottom : Candidate) :
  head pool = Some top → last pool = Some bottom →
  0 < sum (draw_weight top bottom <$> pool) →
  ∃ ps, selection_probabilities pool = Ok ps
        ∧ Forall2 (λ c p, p == draw_weight top bottom c
                                / sum (draw_weight top bottom <$> pool)) pool ps.
Proof.
  intros Htop Hbot HW.
  destruct pool as [|first rest]; [done|]. simpl in Htop. simplify_eq.
  unfold selection_probabilities. rewrite Hbot.
  set (pool := top :: rest) in *.
  set (n := length pool).
  assert (0 < n)%nat as Hn by (unfold n; simpl; lia).
  pose proof (of_nat_pos n Hn) as Hnq.
  set (raw := unnormalized_probability n (score bottom)
                (score_range (score top) (score bottom)) <$> pool).
  assert (sum raw == sum (draw_weight top bottom <$> pool) / inject_Z (Z.of_nat n)) as HT.
  { unfold raw. rewrite <- sum_fmap_div. apply sum_fmap_ext.
    intros c _. by apply unnormalized_as_weight. }
  assert (0 < sum raw) as HTpos.
  { rewrite HT. apply Qlt_shift_div_l; lra. }
  exists ((λ p, p / sum raw) <$> raw). split.
  - apply for_each_ok. intros p _. apply truediv_ok. lra.
  - unfold raw at 2. do 2 apply Forall2_fmap_r.
    apply Forall_Forall2_diag, Forall_forall. intros c _. cbv [compose].
    rewrite HT, (unnormalized_as_weight n top bottom c Hn).
    field. split; lra.
Qed.

Lemma Forall2_sum_div {A} (f : A → Q) (d : Q) (l : list A) (ps : list Q) :
  Forall2 (λ c p, p == f c / d) l ps → sum ps == sum (f <$> l) / d.
Proof.
  induction 1 as [|c p l ps Hp _ IH].
  - rewrite fmap_nil, sum_nil. unfold Qdiv. ring.
  - rewrite fmap_cons, !sum_cons, IH, Hp. unfold Qdiv. ring.
Qed.

Lemma sum_constant (v : Q) (l : list Q) :
  Forall (λ p, p == v) l → sum l == v * inject_Z (Z.of_nat (length l)).
Proof.
  induction 1 as [|p l Hp _ IH].
  - rewrite sum_nil. change (inject_Z (Z.of_nat (length []))) with 0. ring.
  - rewrite sum_cons, IH, Hp. cbn [length]. rewrite of_nat_S. ring.
Qed.

(** The draw of one candidate: the random number [u] of [[0, 1)] selects
    the candidate whose span of the cumulative probabilities contains [u],
    a span as long as the candidate's probability. *)
Lemma draw_by_cumulative_probability (rng : nat → Q) (pool : list Candidate) (ps : list Q) :
  (default_k < length pool)%nat →
  selection_probabilities pool = Ok ps → length ps = length pool →
  Forall (λ p, 0 <= p) ps → sum ps == 1 →
  0 <= rng 0%nat → rng 0%nat < 1 →
  ∃ i c, pool !! i = Some c
         ∧ _diversity_weighted_random_select rng pool default_k = Ok [c]
         ∧ sum (take i ps) <= rng 0%nat
         ∧ rng 0%nat < sum (take (S i) ps).
Proof.
  intros Hk Hps Hlen Hpos Hsum Hu0 Hu1.
  destruct (choices_one_by_interval rng pool ps Hlen Hpos ltac:(lra) Hu0 Hu1)
    as (i & c & Hc & Hdraw & Hlo & Hhi).
  exists i, c. split; [done|]. split.
  - unfold _diversity_weighted_random_select.
    destruct (Nat.leb_spec (length pool) default_k); [lia|].
    rewrite Hps. exact Hdraw.
  - rewrite Hsum, Qmult_1_r in Hlo, Hhi. done.
Qed.

(** C6. A pool of exactly one candidate is returned as it is, whatever
    the random source yields: no draw takes place. *)
Theorem single_candidate_always_selected (rng : nat → Q) (c : Candidate) (k : nat) :
  (1 ≤ k)%nat → _diversity_weighted_random_select rng [c] k = Ok [c].
Proof.
  intros Hk. unfold _diversity_weighted_random_select. cbn [length].
  by destruct (Nat.leb_spec 1 k); [|lia].
Qed.

Lemma single_candidate_always_selected_witness :
  let c := {| cocktail := cuba_libre; score := 27 # 20 |} in
  (1 ≤ default_k)%nat
  ∧ _diversity_weighted_random_select (λ _, 1 # 2) [c] default_k = Ok [c].
Proof.
  intros c.
  assert (1 ≤ default_k)%nat as Hk by (unfold default_k; lia).
  split; [exact Hk|].
  exact (single_candidate_always_selected (λ _, 1 # 2) c default_k Hk).
Defined.

(** C5. When all scores of a pool are equal, every member gets the same
    probability [1 / K], and the draw splits [[0, 1)] evenly: the random
    number [u] selects member [i] exactly on [[i/K, (i+1)/K)]. *)
Theorem equal_scores_uniform (pool : list Candidate) (s : Q) :
  pool ≠ [] → Forall (λ c, score c == s) pool →
  let K := inject_Z (Z.of_nat (length pool)) in
  ∃ ps, selection_probabilities pool = Ok ps
        ∧ length ps = length pool
        ∧ Forall (λ p, p == 1 / K) ps
        ∧ ∀ rng : nat → Q,
            (default_k < length pool)%nat → 0 <= rng 0%nat → rng 0%nat < 1 →
            ∃ i c, pool !! i = Some c
                   ∧ _diversity_weighted_random_select rng pool default_k = Ok [c]
                   ∧ inject_Z (Z.of_nat i) / K <= rng 0%nat
                   ∧ rng 0%nat < inject_Z (Z.of_nat (S i)) / K.
Proof.
  intros Hne Hs K. rewrite Forall_forall in Hs.
  destruct (head pool) as [top|] eqn:Htop; [|by destruct pool].
  destruct (last pool) as [bottom|] eqn:Hbot; [|by apply last_None in Hbot].
  assert (0 < length pool)%nat as Hn by (destruct pool; [done|simpl; lia]).
  pose proof (of_nat_pos _ Hn) as Hnq. fold K in Hnq.
  assert (∀ c, c ∈ pool → 1 # 10 <= draw_weight top bottom c <= 1 # 10) as Hw.
  { intros c Hc. unfold draw_weight, range_share.
    assert (score c - score bottom == 0) as ->.
    { rewrite (Hs c Hc), (Hs bottom) by by apply last_Some_elem_of. ring. }
    unfold Qdiv. rewrite Qmult_0_l. lra. }
  destruct (sum_fmap_bounds (draw_weight top bottom) (1 # 10) (1 # 10) pool Hw)
    as [HW1 HW2]. fold K in HW1, HW2.
  destruct (selection_probabilities_weights pool top bottom Htop Hbot) as (ps & Hps & Hall);
    [lra|].
  assert (length ps = length pool) as Hlen by (symmetry; by eapply Forall2_length).
  assert (Forall (λ p, p == 1 / K) ps) as Huniform.
  { apply Forall_forall. intros p Hp.
    apply list_elem_of_lookup in Hp as [i Hi].
    destruct (Forall2_lookup_r _ _ _ _ _ Hall Hi) as (c & Hc & ->).
    apply list_elem_of_lookup_2 in Hc. destruct (Hw c Hc) as [Hc1 Hc2].
    assert (draw_weight top bottom c == 1 # 10) as -> by lra.
    assert (sum (draw_weight top bottom <$> pool) == (1 # 10) * K) as -> by lra.
    field. lra. }
  exists ps. split_and!; [done..|].
  intros rng Hk Hu0 Hu1.
  assert (0 < 1 / K) as Hshare by (apply Qlt_shift_div_l; lra).
  destruct (draw_by_cumulative_probability rng pool ps Hk Hps Hlen)
    as (i & c & Hc & Hdraw & Hlo & Hhi); [| |done..|].
  { eapply Forall_impl; [exact Huniform|]. cbv beta. intros p ->. lra. }
  { rewrite (sum_constant _ _ Huniform), Hlen. fold K. field. lra. }
  exists i, c. split_and!; [done..| |].
  - rewrite (sum_constant (1 / K)) in Hlo by (by apply Forall_take).
    rewrite length_take, Hlen, Nat.min_l in Hlo
      by (apply lookup_lt_Some in Hc; lia).
    eapply Qle_trans; [|exact Hlo]. apply Qle_lteq. right. field. lra.
  - rewrite (sum_constant (1 / K)) in Hhi by (by apply Forall_take).
    rewrite length_take, Hlen, Nat.min_l in Hhi
      by (apply lookup_lt_Some in Hc; lia).
    eapply Qlt_le_trans; [exact Hhi|]. apply Qle_lteq. right. field. lra.
Qed.

Lemma equal_scores_uniform_witness :
  all_equal ≠ [] ∧ Forall (λ c, score c == 7 # 10) all_equal
  ∧ ∃ ps, selection_probabilities all_equal = Ok ps
          ∧ Forall (λ p, p == 1 / inject_Z (Z.of_nat (length all_equal))) ps.
Proof.
  assert (all_equal ≠ []) as Hne by discriminate.
  assert (Forall (λ c, score c == 7 # 10) all_equal) as Heq
    by (repeat constructor).
  split; [exact Hne|]. split; [exact Heq|].
  destruct (equal_scores_uniform all_equal (7 # 10) Hne Heq) as (ps & Hps & _ & Hu & _).
  exists ps. split; [exact Hps | exact Hu].
Defined.

Lemma three_two_one_ranked : ranked three_two_one.
Proof. unfold ranked, three_two_one. repeat constructor; discriminate. Qed.

(** The code gives the pool 3, 2, 1 the probabilities 20/33, 1/3 and
    2/33; the specification's formula gives 19/30, 1/3 and 1/30. *)
Example three_two_one_code :
  ∃ ps, selection_probabilities three_two_one = Ok ps
        ∧ Qred <$> ps = [20 # 33; 1 # 3; 2 # 33].
Proof. eexists. split; vm_compute; reflexivity. Qed.

Example three_two_one_claimed :
  Qred ∘ Claimed.selection_probability (1 # 10) three_two_one <$> three_two_one
  = [19 # 30; 1 # 3; 1 # 30].
Proof. vm_compute. reflexivity. Qed.

(** C1, as stated, fails: on the ranked pool with scores 3, 2, 1 the
    first candidate is drawn with probability 20/33, not with the 19/30
    of [ε/K + (1−ε)·(score − min)/Σ(score − min)]. *)
Lemma claimed_probability_differs :
  ¬ (∀ pool ps, ranked pool → (default_k < length pool)%nat →
       selection_probabilities pool = Ok ps →
       Forall2 (λ c p, p == Claimed.selection_probability (1 # 10) pool c) pool ps).
Proof.
  intros Hclaim.
  destruct three_two_one_code as (ps & Hps & Hred).
  specialize (Hclaim three_two_one ps three_two_one_ranked).
  destruct ps as [|p ps]; [discriminate|].
  assert (Qred p = 20 # 33) as Hp by (by injection Hred).
  assert (p == 20 # 33) as Hp' by (rewrite <- Hp; symmetry; apply Qred_correct).
  specialize (Hclaim ltac:(unfold default_k; simpl; lia) Hps).
  apply Forall2_cons_1 in Hclaim as [Hfirst _].
  rewrite Hp' in Hfirst. vm_compute in Hfirst. discriminate.
Qed.

(** C1, amended. For a ranked pool of [K] candidates the weights handed
    to the draw are [p_i = w_i / Σ_j w_j] with [w_i = 0.1 + 0.9·x_i],
    where [x_i = (score_i − min_score) / (max_score − min_score)] is the
    share of the score range (the range counts as 1 when all scores are
    equal); they sum to 1 and each is at least [0.1 / K]. The draw of one
    candidate selects candidate [i] exactly when the random number of
    [[0, 1)] falls in the span of length [p_i] that follows the spans of
    the candidates before it. *)
Theorem selection_probability_by_range_share (pool : list Candidate)
    (top bottom : Candidate) :
  ranked pool → head pool = Some top → last pool = Some bottom →
  ∃ ps, selection_probabilities pool = Ok ps
        ∧ Forall2 (λ c p,
            p == draw_weight top bottom c / sum (draw_weight top bottom <$> pool)
            ∧ (1 # 10) / inject_Z (Z.of_nat (length pool)) <= p) pool ps
        ∧ sum ps == 1
        ∧ ∀ rng : nat → Q,
            (default_k < length pool)%nat → 0 <= rng 0%nat → rng 0%nat < 1 →
            ∃ i c, pool !! i = Some c
                   ∧ _diversity_weighted_random_select rng pool default_k = Ok [c]
                   ∧ sum (take i ps) <= rng 0%nat
                   ∧ rng 0%nat < sum (take (S i) ps).
Proof.
  intros Hr Htop Hbot.
  assert (0 < length pool)%nat as Hn by (destruct pool; [done|simpl; lia]).
  pose proof (of_nat_pos _ Hn) as Hnq.
  assert (∀ c, c ∈ pool → 1 # 10 <= draw_weight top bottom c <= 1) as Hw.
  { intros c Hc. by apply draw_weight_bounds, (ranked_extremes pool). }
  destruct (sum_fmap_bounds (draw_weight top bottom) (1 # 10) 1 pool Hw) as [HW1 HW2].
  set (W := sum (draw_weight top bottom <$> pool)) in *.
  assert (0 < W) as HW by lra.
  destruct (selection_probabilities_weights pool top bottom Htop Hbot HW)
    as (ps & Hps & Hall).
  assert (length pool = length ps) as Hlen by by eapply Forall2_length.
  assert (Forall2 (λ c p, p == draw_weight top bottom c / W
                          ∧ (1 # 10) / inject_Z (Z.of_nat (length pool)) <= p) pool ps)
    as Hfloor.
  { apply Forall2_same_length_lookup. split; [done|].
    intros i c p Hc Hp.
    pose proof (Forall2_lookup_lr _ _ _ _ _ _ Hall Hc Hp) as Hcp. cbv beta in Hcp.
    split; [done|]. rewrite Hcp.
    apply list_elem_of_lookup_2 in Hc. destruct (Hw c Hc) as [Hc1 _].
    apply Qle_shift_div_l; [done|]. fold W.
    assert (W / inject_Z (Z.of_nat (length pool)) <= 1) as Hshare
      by (apply Qle_shift_div_r; lra).
    assert ((1 # 10) / inject_Z (Z.of_nat (length pool)) * W
            == (1 # 10) * (W / inject_Z (Z.of_nat (length pool)))) as ->
      by (field; lra).
    lra. }
  assert (sum ps == 1) as Hsum.
  { rewrite (Forall2_sum_div (draw_weight top bottom) W pool ps Hall).
    fold W. field. lra. }
  exists ps. split_and!; [done..|].
  intros rng Hk Hu0 Hu1.
  apply draw_by_cumulative_probability; [done..| |done|done|done].
  assert (0 < (1 # 10) / inject_Z (Z.of_nat (length pool))) as Hpos
    by (apply Qlt_shift_div_l; lra).
  apply Forall_forall. intros p Hp. apply list_elem_of_lookup in Hp as [i Hi].
  destruct (Forall2_lookup_r _ _ _ _ _ Hfloor Hi) as (c & _ & _ & Hge). lra.
Qed.

Lemma selection_probability_by_range_share_witness :
  let top := {| cocktail := entry "Mojito" 3 3 3 None; score := 3 |} in
  let bottom := {| cocktail := entry "Daiquiri" 3 3 3 None; score := 1 |} in
  ranked three_two_one ∧ head three_two_one = Some top ∧ last three_two_one = Some bottom
  ∧ ∃ ps, selection_probabilities three_two_one = Ok ps ∧ sum ps == 1
          ∧ ∃ i c, three_two_one !! i = Some c
                   ∧ _diversity_weighted_random_select (λ _, 1 # 2) three_two_one default_k
                     = Ok [c].
Proof.
  intros top bottom.
  assert (ranked three_two_one) as Hr
    by (unfold ranked, three_two_one; repeat constructor; discriminate).
  assert (head three_two_one = Some top) as Htop by reflexivity.
  assert (last three_two_one = Some bottom) as Hbot by reflexivity.
  split; [exact Hr|]. split; [exact Htop|]. split; [exact Hbot|].
  destruct (selection_probability_by_range_share three_two_one top bottom Hr Htop Hbot)
    as (ps & Hps & _ & Hsum & Hdraw).
  exists ps. split; [exact Hps|]. split; [exact Hsum|].
  destruct (Hdraw (λ _, 1 # 2)) as (i & c & Hc & Hsel & _).
  - unfold default_k, three_two_one. simpl. lia.
  - discriminate.
  - reflexivity.
  - exists i, c. split; [exact Hc | exact Hsel].
Defined.

(** With scores 3, 2, 1 the spans are [[0, 20/33)], [[20/33, 31/33)] and
    [[31/33, 1)]: 0.6 selects the first candidate, 0.61 the second and
    0.95 the third. *)
Example three_two_one_draws :
  names_of (_diversity_weighted_random_select (λ _, 60 # 100) three_two_one default_k)
    = Ok ["Mojito"]%string
  ∧ names_of (_diversity_weighted_random_select (λ _, 61 # 100) three_two_one default_k)
    = Ok ["Negroni"]%string
  ∧ names_of (_diversity_weighted_random_select (λ _, 95 # 100) three_two_one default_k)
    = Ok ["Daiquiri"]%string.
Proof. split_and!; vm_compute; reflexivity. Qed.

End Selector.

(** ** Recency penalty *)
Section Recency.
Import CocktailAgent Engine.
Local Open Scope Q_scope.

Lemma most_recent_position_None (recent : list string) (name : string) :
  most_recent_position recent name = None ↔ name ∉ recent.
Proof.
  unfold most_recent_position. rewrite fmap_None, list_find_None, Forall_forall.
  split.
  - intros Hno Hin. apply (Hno name); [by apply elem_of_reverse_2|done].
  - intros Hno x Hx ->. by rewrite elem_of_reverse in Hx.
Qed.

(** Position [p] names the last occurrence: the entry [p] places from
    the end is the item, and it does not occur after that. *)
Lemma most_recent_position_Some (recent : list string) (name : string) (p : nat) :
  most_recent_position recent name = Some p →
  (1 ≤ p ≤ length recent)%nat
  ∧ recent !! (length recent - p)%nat = Some name
  ∧ name ∉ drop (length recent - p + 1) recent.
Proof.
  unfold most_recent_position. intros Hp.
  apply fmap_Some in Hp as ([i x] & Hfind & ->). simpl.
  apply list_find_Some in Hfind as (Hi & -> & Hfirst).
  apply reverse_lookup_Some in Hi as [Hi Hlt].
  split_and!; [lia|lia|done|].
  intros Hin. apply list_elem_of_lookup in Hin as [j Hj].
  rewrite lookup_drop in Hj.
  pose proof (lookup_lt_Some _ _ _ Hj) as Hjlt.
  apply (Hfirst (length recent - S (length recent - S i + 1 + j))%nat name); [|lia|done].
  apply reverse_lookup_Some. split; [|lia].
  rewrite <- Hj. f_equal. lia.
Qed.

Lemma recency_formula_ok (h p : nat) :
  (0 < h)%nat → recency_formula h p = Ok (Qmax (1 # 2) (linear_decay h p)).
Proof.
  intros Hh. unfold recency_formula, linear_decay.
  rewrite truediv_ok; [done|].
  pose proof (of_nat_pos h Hh). unfold of_nat. lra.
Qed.

Lemma linear_decay_bounds (h p : nat) :
  (1 ≤ p ≤ h)%nat → 1 # 2 <= linear_decay h p ∧ linear_decay h p < 1.
Proof.
  intros Hp. unfold linear_decay, of_nat.
  assert (0 < inject_Z (Z.of_nat h)) as Hh by (apply of_nat_pos; lia).
  assert (0 < inject_Z (Z.of_nat h - Z.of_nat p + 1)) as Hlo.
  { change 0 with (inject_Z 0). rewrite <- Zlt_Qlt. lia. }
  assert (inject_Z (Z.of_nat h - Z.of_nat p + 1) <= inject_Z (Z.of_nat h)) as Hhi.
  { rewrite <- Zle_Qle. lia. }
  assert (0 < inject_Z (Z.of_nat h - Z.of_nat p + 1) / inject_Z (Z.of_nat h))
    by (apply Qlt_shift_div_l; lra).
  assert (inject_Z (Z.of_nat h - Z.of_nat p + 1) / inject_Z (Z.of_nat h) <= 1)
    by (apply Qle_shift_div_r; lra).
  split; lra.
Qed.

Lemma linear_decay_just_shown (h : nat) : (0 < h)%nat → linear_decay h 1 == 1 # 2.
Proof.
  intros Hh. unfold linear_decay, of_nat. pose proof (of_nat_pos h Hh).
  replace (Z.of_nat h - Z.of_nat 1 + 1)%Z with (Z.of_nat h) by lia.
  field. lra.
Qed.

(** The older the last showing, the larger the factor. *)
Lemma linear_decay_mono (h p q : nat) :
  (0 < h)%nat → (p ≤ q)%nat → linear_decay h p <= linear_decay h q.
Proof.
  intros Hh Hpq. unfold linear_decay, of_nat. pose proof (of_nat_pos h Hh) as Hhq.
  assert (inject_Z (Z.of_nat h - Z.of_nat q + 1) <= inject_Z (Z.of_nat h - Z.of_nat p + 1))
    as Hle by (rewrite <- Zle_Qle; lia).
  assert (inject_Z (Z.of_nat h - Z.of_nat q + 1) / inject_Z (Z.of_nat h)
          <= inject_Z (Z.of_nat h - Z.of_nat p + 1) / inject_Z (Z.of_nat h)).
  { unfold Qdiv. apply Qmult_le_compat_r; [done|]. apply Qinv_le_0_compat. lra. }
  lra.
Qed.

Lemma linear_decay_strict (h p q : nat) :
  (0 < h)%nat → (p < q)%nat → linear_decay h p < linear_decay h q.
Proof.
  intros Hh Hpq. unfold linear_decay, of_nat. pose proof (of_nat_pos h Hh) as Hhq.
  assert (inject_Z (Z.of_nat h - Z.of_nat q + 1) < inject_Z (Z.of_nat h - Z.of_nat p + 1))
    as Hlt by (rewrite <- Zlt_Qlt; lia).
  assert (inject_Z (Z.of_nat h - Z.of_nat q + 1) / inject_Z (Z.of_nat h)
          < inject_Z (Z.of_nat h - Z.of_nat p + 1) / inject_Z (Z.of_nat h)).
  { unfold Qdiv. apply Qmult_lt_compat_r; [|done]. apply Qinv_lt_0_compat. lra. }
  lra.
Qed.

(** C4. With a history within the bound [H > 0]: an item that is not in
    the history has factor 1.0; an item whose last showing is at position
    [p] from the end has factor [1 − 0.5·(H − p + 1)/H], which the floor
    0.5 leaves unchanged, which lies in [[0.5, 1)], is 0.5 for the item
    just shown, and is smaller the more recent the showing. *)
Theorem recency_factor_by_position cfg (recent : list string) (name : string) :
  (0 < H cfg)%nat → (length recent ≤ H cfg)%nat →
  match most_recent_position recent name with
  | None => (name ∉ recent) ∧ recency_factor cfg recent name = Ok 1
  | Some p =>
      (1 ≤ p ≤ H cfg)%nat
      ∧ recent !! (length recent - p)%nat = Some name
      ∧ ∃ f, recency_factor cfg recent name = Ok f
             ∧ f = Qmax (1 # 2) (linear_decay (H cfg) p)
             ∧ f == linear_decay (H cfg) p
             ∧ (1 # 2) <= f ∧ f < 1
             ∧ (p = 1%nat → f == 1 # 2)
             ∧ ∀ other q g,
                 most_recent_position recent other = Some q →
                 recency_factor cfg recent other = Ok g →
                 ((p ≤ q)%nat → f <= g) ∧ ((p < q)%nat → f < g)
  end.
Proof.
  intros Hh Hlen.
  destruct (most_recent_position recent name) as [p|] eqn:Hp.
  - destruct (most_recent_position_Some _ _ _ Hp) as (Hrange & Hat & _).
    assert (1 ≤ p ≤ H cfg)%nat as Hp' by lia.
    destruct (linear_decay_bounds (H cfg) p Hp') as [Hlo Hhi].
    pose proof (Q.max_r _ _ Hlo) as Hmax.
    split_and!; [lia|lia|done|].
    exists (Qmax (1 # 2) (linear_decay (H cfg) p)).
    unfold recency_factor. rewrite Hp.
    split_and!; [by apply recency_formula_ok|done|done|by rewrite Hmax..| |].
    + intros ->. rewrite Hmax. by apply linear_decay_just_shown.
    + intros other q g Hq. rewrite Hq, recency_formula_ok by done.
      intros [= <-].
      destruct (most_recent_position_Some _ _ _ Hq) as (Hqrange & _).
      assert (1 ≤ q ≤ H cfg)%nat as Hq' by lia.
      destruct (linear_decay_bounds (H cfg) q Hq') as [Hqlo _].
      rewrite Hmax, (Q.max_r _ _ Hqlo). split; intros Hpq.
      * by apply linear_decay_mono.
      * by apply linear_decay_strict.
  - split; [by apply most_recent_position_None|].
    unfold recency_factor. by rewrite Hp.
Qed.

Lemma recency_factor_by_position_witness :
  (0 < H default_config)%nat ∧ (length ["Mojito"; "Negroni"; "Mojito"]%string ≤ H default_config)%nat
  ∧ ∃ f, recency_factor default_config ["Mojito"; "Negroni"; "Mojito"]%string "Negroni" = Ok f
         ∧ f == 11 # 20.
Proof.
  assert (0 < H default_config)%nat as Hh by (vm_compute; lia).
  assert (length ["Mojito"; "Negroni"; "Mojito"]%string ≤ H default_config)%nat as Hlen
    by (vm_compute; lia).
  split; [exact Hh|]. split; [exact Hlen|].
  pose proof (recency_factor_by_position default_config
                ["Mojito"; "Negroni"; "Mojito"]%string "Negroni" Hh Hlen) as Hthm.
  change (most_recent_position ["Mojito"; "Negroni"; "Mojito"]%string "Negroni")
    with (Some 2%nat) in Hthm.
  destruct Hthm as (_ & _ & f & Hf & _ & Hlin & _).
  exists f. split; [exact Hf|]. rewrite Hlin. vm_compute. reflexivity.
Defined.

End Recency.

(** ** Scoring *)
Section Scoring.
Import CocktailAgent Engine.
Local Open Scope Q_scope.

Lemma square_nonneg (x : Q) : 0 <= x ^ 2.
Proof. change (x ^ 2) with (x * x). nra. Qed.

Lemma sum_of_squares_nonneg profile item : 0 <= sum_of_squares profile item.
Proof.
  unfold sum_of_squares.
  pose proof (square_nonneg (energy profile - Energy item)).
  pose proof (square_nonneg (tension profile - Tension item)).
  pose proof (square_nonneg (control profile - Control item)).
  lra.
Qed.

Lemma dimension_score_ok profile item :
  dimension_score profile item = Ok (dimension_value profile item).
Proof.
  unfold dimension_score. apply truediv_ok.
  pose proof (sum_of_squares_nonneg profile item). lra.
Qed.

Lemma need_score_ok profile item :
  need_score profile item = Ok (need_value profile item).
Proof.
  unfold need_score. apply truediv_ok.
  pose proof (of_nat_pos (Nat.max 1 (size (need_set item))) ltac:(lia)).
  unfold of_nat. lra.
Qed.

Lemma raw_score_ok cfg profile item :
  raw_score cfg profile item = Ok (raw_value cfg profile item).
Proof. unfold raw_score. by rewrite dimension_score_ok, need_score_ok. Qed.

Lemma dimension_value_bounds profile item :
  0 < dimension_value profile item ∧ dimension_value profile item <= 1.
Proof.
  unfold dimension_value. pose proof (sum_of_squares_nonneg profile item). split.
  - apply Qlt_shift_div_l; lra.
  - apply Qle_shift_div_r; lra.
Qed.

Lemma need_value_bounds profile item :
  0 <= need_value profile item ∧ need_value profile item <= 1.
Proof.
  unfold need_value, of_nat.
  pose proof (of_nat_pos (Nat.max 1 (size (need_set item))) ltac:(lia)) as Hpos.
  assert (size (needs profile ∩ need_set item) ≤ size (need_set item))%nat as Hsub
    by apply subseteq_size, intersection_subseteq_r.
  assert (0 <= inject_Z (Z.of_nat (size (needs profile ∩ need_set item)))) as H0
    by (change 0 with (inject_Z 0); rewrite <- Zle_Qle; lia).
  assert (inject_Z (Z.of_nat (size (needs profile ∩ need_set item)))
          <= inject_Z (Z.of_nat (Nat.max 1 (size (need_set item))))) as H1
    by (rewrite <- Zle_Qle; lia).
  split.
  - apply Qle_shift_div_l; lra.
  - apply Qle_shift_div_r; lra.
Qed.

Lemma need_value_empty profile item : needs profile = ∅ → need_value profile item == 0.
Proof.
  intros Hempty. unfold need_value. rewrite Hempty.
  assert (∅ ∩ need_set item = (∅ : gset string)) as -> by apply (left_absorb_L _ _).
  rewrite size_empty. unfold of_nat, Qdiv. simpl. ring.
Qed.

(** C8. Scoring raises no error on any profile and item: the dimension
    score is [1 / (1 + sum of squared differences)] of the values as they
    are given, in or out of [[1, 5]], and the need overlap lies in
    [[0, 1]]. For a profile without needs the overlap is 0 and the raw
    score is the weighted dimension score alone. *)
Theorem scoring_accepts_any_profile cfg profile item :
  ∃ d n raw,
    dimension_score profile item = Ok d
    ∧ need_score profile item = Ok n
    ∧ raw_score cfg profile item = Ok raw
    ∧ d == 1 / (1 + ((energy profile - Energy item) ^ 2
                    + (tension profile - Tension item) ^ 2
                    + (control profile - Control item) ^ 2))
    ∧ raw == w_dim cfg * d + w_need cfg * n
    ∧ 0 <= n ∧ n <= 1
    ∧ (needs profile = ∅ → n == 0 ∧ raw == w_dim cfg * d).
Proof.
  exists (dimension_value profile item), (need_value profile item),
         (raw_value cfg profile item).
  pose proof (need_value_bounds profile item) as [Hn0 Hn1].
  split_and!.
  - apply dimension_score_ok.
  - apply need_score_ok.
  - apply raw_score_ok.
  - reflexivity.
  - reflexivity.
  - done.
  - done.
  - intros Hempty. pose proof (need_value_empty _ item Hempty) as Hzero.
    split; [done|]. unfold raw_value. rewrite Hzero. ring.
Qed.

Lemma scoring_accepts_any_profile_witness :
  needs out_of_range = ∅
  ∧ ∃ raw, raw_score default_config out_of_range cuba_libre = Ok raw ∧ raw == 3 # 275.
Proof.
  assert (needs out_of_range = ∅) as Hempty by reflexivity.
  split; [exact Hempty|].
  destruct (scoring_accepts_any_profile default_config out_of_range cuba_libre)
    as (d & n & raw & _ & _ & Hraw & Hd & _ & _ & _ & Hnone).
  destruct (Hnone Hempty) as [_ Hrd].
  exists raw. split; [exact Hraw|]. rewrite Hrd, Hd. vm_compute. reflexivity.
Defined.

(** Both scores are fractions of 1. *)
Lemma scoring_total cfg profile item :
  ∃ d n, dimension_score profile item = Ok d
         ∧ need_score profile item = Ok n
         ∧ raw_score cfg profile item = Ok (w_dim cfg * d + w_need cfg * n)
         ∧ 0 < d ∧ d <= 1 ∧ 0 <= n ∧ n <= 1.
Proof.
  exists (dimension_value profile item), (need_value profile item).
  pose proof (dimension_value_bounds profile item) as [? ?].
  pose proof (need_value_bounds profile item) as [? ?].
  split_and!; [apply dimension_score_ok|apply need_score_ok|apply raw_score_ok|done..].
Qed.

(** Energy 9 is scored as 9: clamping it to 5 would give another score. *)
Example out_of_range_not_clamped :
  ∃ raw clamped,
    raw_score default_config out_of_range cuba_libre = Ok raw
    ∧ raw_score default_config
        {| energy := 5; tension := 1; control := 1; needs := ∅ |} cuba_libre = Ok clamped
    ∧ raw == 3 # 275 ∧ clamped == 3 # 35.
Proof. do 2 eexists. split_and!; vm_compute; reflexivity. Qed.

End Scoring.

(** ** Adjusted-score ranking *)
Section Ranking.
Import CocktailAgent Engine.
Local Open Scope Q_scope.

Lemma recency_factor_ok cfg recent name :
  (0 < H cfg)%nat → recency_factor cfg recent name = Ok (recency_value cfg recent name).
Proof.
  intros Hh. unfold recency_factor, recency_value.
  destruct (most_recent_position recent name); [by apply recency_formula_ok|done].
Qed.

Lemma adjusted_candidate_ok cfg index recent profile item :
  (0 < H cfg)%nat →
  adjusted_candidate cfg index recent profile item
  = Ok (scored cfg index recent profile item).
Proof.
  intros Hh. unfold adjusted_candidate, score_trace.
  rewrite dimension_score_ok, need_score_ok, raw_score_ok. simpl.
  by rewrite recency_factor_ok.
Qed.

(** *** The stable sort *)

Lemma insert_desc_Permutation c l : insert_desc c l ≡ₚ c :: l.
Proof.
  induction l as [|d l IH]; simpl; [done|].
  destruct (Qlt_le_dec (score c) (score d)); [|done].
  rewrite IH. apply Permutation_swap.
Qed.

Lemma sort_desc_Permutation l : sort_desc l ≡ₚ l.
Proof.
  induction l as [|c l IH]; simpl; [done|].
  by rewrite insert_desc_Permutation, IH.
Qed.

Lemma insert_desc_ranked c l : ranked l → ranked (insert_desc c l).
Proof.
  unfold ranked. induction 1 as [|d l Hl IH Hd]; simpl.
  - repeat constructor.
  - destruct (Qlt_le_dec (score c) (score d)) as [Hlt|Hge].
    + constructor; [done|].
      rewrite insert_desc_Permutation. constructor; [lra|done].
    + constructor; [by constructor|].
      constructor; [done|]. eapply Forall_impl; [done|]. simpl. intros; lra.
Qed.

Lemma sort_desc_ranked l : ranked (sort_desc l).
Proof.
  induction l as [|c l IH]; simpl; [constructor|]. by apply insert_desc_ranked.
Qed.

(** Candidates of one score keep their relative order. *)
Lemma insert_desc_stable (v : Q) c l :
  filter (λ d, score d == v) (insert_desc c l) = filter (λ d, score d == v) (c :: l).
Proof.
  induction l as [|d l IH]; simpl; [done|].
  destruct (Qlt_le_dec (score c) (score d)) as [Hlt|Hge]; [|done].
  rewrite filter_cons, IH, !filter_cons.
  destruct (decide (score d == v)) as [Hd|Hd]; [|done].
  destruct (decide (score c == v)) as [Hc|Hc]; [|done].
  rewrite Hd, Hc in Hlt. lra.
Qed.

Lemma sort_desc_stable (v : Q) l :
  filter (λ d, score d == v) (sort_desc l) = filter (λ d, score d == v) l.
Proof.
  induction l as [|c l IH]; simpl; [done|].
  by rewrite insert_desc_stable, !filter_cons, IH.
Qed.

(** *** The ranking *)

Lemma adjusted_ranking_ok cfg catalog history profile session_id :
  (0 < H cfg)%nat →
  adjusted_ranking cfg catalog history profile session_id
  = Ok (sort_desc
          (scored cfg (build cfg catalog)
             (_get_recent_recommendations history session_id (Z.of_nat (H cfg))) profile
           <$> catalog)).
Proof.
  intros Hh. unfold adjusted_ranking.
  rewrite (for_each_ok _ (scored cfg (build cfg catalog)
    (_get_recent_recommendations history session_id (Z.of_nat (H cfg))) profile)); [done|].
  intros item _. by apply adjusted_candidate_ok.
Qed.

(** Two requests of one session with the same profile, catalog and
    configuration: the first ranks A before C and selects A, and the
    second, which sees A in the history, ranks C before A. *)
Example second_request_ranks_differently :
  let history' : History := {[ "s"%string := ["A"%string] ]} in
  selection (recommend default_config (λ _, 1 # 2) two_cocktails ∅ energetic "s")
    = Ok ("A"%string, history')
  ∧ names_of (adjusted_ranking default_config two_cocktails ∅ energetic "s")
    = Ok ["A"; "C"]%string
  ∧ names_of (adjusted_ranking default_config two_cocktails history' energetic "s")
    = Ok ["C"; "A"]%string.
Proof. split_and!; vm_compute; reflexivity. Qed.

(** *** The ranking is fixed by its contract *)

Lemma ranked_head_max c l (d : Candidate) : ranked (c :: l) → d ∈ c :: l → score d <= score c.
Proof.
  intros Hr Hd. apply StronglySorted_inv in Hr as [_ Hall].
  apply elem_of_cons in Hd as [->|Hd]; [lra|].
  by apply (proj1 (Forall_forall _ _) Hall).
Qed.

Lemma same_classes_elem_of (l1 l2 : list Candidate) d :
  (∀ v, filter (λ c, score c == v) l1 = filter (λ c, score c == v) l2) →
  d ∈ l1 → d ∈ l2.
Proof.
  intros Hf Hd.
  assert (d ∈ filter (λ c, score c == score d) l1) as Hin.
  { apply list_elem_of_filter. split; [reflexivity|done]. }
  rewrite Hf in Hin. by apply list_elem_of_filter in Hin as [_ ?].
Qed.

(** Two descending lists with the same candidates of every score, in the
    same order, are the same list. *)
Lemma stable_order_unique (l1 l2 : list Candidate) :
  ranked l1 → ranked l2 →
  (∀ v, filter (λ c, score c == v) l1 = filter (λ c, score c == v) l2) →
  l1 = l2.
Proof.
  revert l2. induction l1 as [|x l1 IH]; intros l2 Hr1 Hr2 Hf.
  - destruct l2 as [|y l2]; [done|].
    specialize (Hf (score y)). rewrite filter_cons in Hf.
    destruct (decide (score y == score y)) as [_|Hn]; [done|].
    destruct Hn. reflexivity.
  - destruct l2 as [|y l2].
    { specialize (Hf (score x)). rewrite filter_cons in Hf.
      destruct (decide (score x == score x)) as [_|Hn]; [done|].
      destruct Hn. reflexivity. }
    assert (score x == score y) as Hxy.
    { apply Qle_antisym.
      - apply (ranked_head_max y l2); [done|].
        apply (same_classes_elem_of (x :: l1)); [done|left].
      - apply (ranked_head_max x l1); [done|].
        apply (same_classes_elem_of (y :: l2)); [|left].
        intros v. symmetry. apply Hf. }
    assert (x = y) as ->.
    { specialize (Hf (score x)). rewrite !filter_cons in Hf.
      destruct (decide (score x == score x)) as [_|Hn]; [|destruct Hn; reflexivity].
      destruct (decide (score y == score x)) as [_|Hn]; [|destruct Hn; by symmetry].
      by injection Hf. }
    f_equal. apply IH.
    + by apply StronglySorted_inv in Hr1 as [? _].
    + by apply StronglySorted_inv in Hr2 as [? _].
    + intros v. specialize (Hf v). rewrite !filter_cons in Hf.
      destruct (decide (score y == v)); [by injection Hf|done].
Qed.

(** C7. For a fixed profile, catalog and configuration (with [H > 0]),
    and the session state the request reads, the pipeline returns a
    ranking, this ranking is the scored catalog in descending order of
    adjusted score with items of equal score in catalog order, and it is
    the only list that is: every run that sorts the same scored catalog
    descending and breaks ties by catalog order, whatever its sorting
    method, produces the identical ranking. *)
Theorem ranking_is_the_unique_stable_order
    cfg catalog (history : History) profile session_id :
  (0 < H cfg)%nat →
  let recent := _get_recent_recommendations history session_id (Z.of_nat (H cfg)) in
  let candidates := scored cfg (build cfg catalog) recent profile <$> catalog in
  ∃ ranking,
    adjusted_ranking cfg catalog history profile session_id = Ok ranking
    ∧ stable_descending candidates ranking
    ∧ ∀ ranking', stable_descending candidates ranking' → ranking' = ranking.
Proof.
  intros Hh recent candidates.
  assert (stable_descending candidates (sort_desc candidates)) as Hsort.
  { split; [apply sort_desc_ranked|]. intros v. apply sort_desc_stable. }
  exists (sort_desc candidates). split_and!.
  - by apply adjusted_ranking_ok.
  - exact Hsort.
  - intros ranking' [Hranked Hstable]. destruct Hsort as [Hranked' Hstable'].
    apply stable_order_unique; [done..|].
    intros v. by rewrite Hstable, Hstable'.
Qed.

Lemma ranking_is_the_unique_stable_order_witness :
  (0 < H default_config)%nat
  ∧ ∃ ranking,
      adjusted_ranking default_config two_cocktails ∅ energetic "s" = Ok ranking
      ∧ ranked ranking.
Proof.
  assert (0 < H default_config)%nat as Hh by (vm_compute; lia).
  split; [exact Hh|].
  destruct (ranking_is_the_unique_stable_order
              default_config two_cocktails ∅ energetic "s" Hh)
    as (ranking & Hok & [Hranked _] & _).
  exists ranking. split; [exact Hok | exact Hranked].
Defined.

End Ranking.

(** ** The result card *)
Section ResultCardFacts.
Import Js ResultCard.

Lemma first_available_cons (v : JsValue) (vs : list JsValue) :
  Claimed.first_available (v :: vs) = or v (Claimed.first_available vs).
Proof.
  unfold Claimed.first_available, or. simpl.
  destruct (truthy v); simpl; [done|].
  by destruct (list_find _ vs) as [[i x]|].
Qed.

Lemma or_falsy_assoc (a b c : JsValue) : or (or a b) c = or a (or b c).
Proof. unfold or. destruct (truthy a) eqn:Ha; [by rewrite Ha|done]. Qed.

Lemma cardImageUrl_first_available (result : ProcessingResult) :
  cardImageUrl result = Claimed.first_available (fallback_order result).
Proof.
  unfold cardImageUrl, fallback_order.
  rewrite !first_available_cons, !or_falsy_assoc. done.
Qed.

Lemma first_available_truthy_or_empty (vs : list JsValue) :
  truthy (Claimed.first_available vs) = true ∨ Claimed.first_available vs = JsString "".
Proof.
  induction vs as [|v vs IH]; [by right|].
  rewrite first_available_cons. unfold or.
  destruct (truthy v) eqn:Hv; [by left|done].
Qed.

(** [!cardImageUrl] holds exactly for the empty string: the chain never
    yields another falsy value. *)
Lemma cardImageUrl_falsy_iff_empty (result : ProcessingResult) :
  truthy (cardImageUrl result) = false ↔ cardImageUrl result = JsString "".
Proof.
  rewrite cardImageUrl_first_available.
  destruct (first_available_truthy_or_empty (fallback_order result)) as [Ht|He].
  - split; [congruence|]. intros He. by rewrite He in Ht.
  - by rewrite He.
Qed.

(** C9, as stated, fails: with a card URL present the button is still
    disabled while a download is running. *)
Lemma download_disabled_with_url :
  ¬ (∀ result isDownloading,
       download_disabled result isDownloading = true
       ↔ cardImageUrl result = JsString "").
Proof.
  intros Hclaim.
  destruct (Hclaim card_ready true) as [Hempty _].
  specialize (Hempty eq_refl). vm_compute in Hempty. discriminate.
Qed.

(** C9, amended. The card image is the first non-empty of
    [layout.final_card_url], [layout.ink_style_image_url],
    [presentation.final_presentation_image_url] and
    [presentation.cocktail_image_url], else the empty string; the
    download button is disabled exactly when this is the empty string or
    a download is already running, and a click starts a download exactly
    when the button is enabled. *)
Theorem card_image_fallback_and_download (result : ProcessingResult) (isDownloading : bool) :
  cardImageUrl result = Claimed.first_available (fallback_order result)
  ∧ (download_disabled result isDownloading = true
     ↔ isDownloading = true ∨ cardImageUrl result = JsString "")
  ∧ (handleDownload result isDownloading = BeginDownload
     ↔ download_disabled result isDownloading = false).
Proof.
  split_and!.
  - apply cardImageUrl_first_available.
  - unfold download_disabled.
    rewrite orb_true_iff, negb_true_iff. by rewrite cardImageUrl_falsy_iff_empty.
  - unfold handleDownload, download_disabled.
    destruct (truthy (cardImageUrl result)), isDownloading; simpl; split; done.
Qed.

End ResultCardFacts.

(** ** The voice and text input screen *)
Section VoiceInputFacts.
Import Js VoiceInputScreen.

Lemma trimStart_nil (s : code_units) :
  trimStart s = [] ↔ Forall (λ c, is_white_space c = true) s.
Proof.
  induction s as [|c s IH]; simpl; [done|].
  destruct (is_white_space c) eqn:Hc.
  - rewrite IH. split; [by constructor|by inversion 1].
  - split; [done|]. inversion 1; congruence.
Qed.

Lemma trimStart_head (s : code_units) (c : N) (t : code_units) :
  trimStart s = c :: t → is_white_space c = false.
Proof.
  induction s as [|d s IH]; simpl; [done|].
  destruct (is_white_space d) eqn:Hd; [done|]. by intros [= -> _].
Qed.

Lemma trimEnd_nil (s : code_units) :
  trimEnd s = [] ↔ Forall (λ c, is_white_space c = true) s.
Proof.
  unfold trimEnd.
  rewrite <- (Forall_reverse _ s), <- trimStart_nil.
  split; [|by intros ->].
  intros Hr. apply (f_equal reverse) in Hr. by rewrite reverse_involutive in Hr.
Qed.

(** [trim] leaves nothing exactly when the text is all white space. *)
Lemma trim_nil (s : code_units) :
  trim s = [] ↔ Forall (λ c, is_white_space c = true) s.
Proof.
  unfold trim. rewrite trimEnd_nil. split.
  - intros Hall. apply trimStart_nil.
    destruct (trimStart s) as [|c t] eqn:Hs; [done|].
    apply trimStart_head in Hs. inversion Hall; congruence.
  - intros Hall. apply trimStart_nil in Hall. by rewrite Hall.
Qed.

Ltac no_alert :=
  let Hin := fresh "Hin" in
  intros Hin;
  repeat (apply elem_of_cons in Hin as [Hin|Hin]; [discriminate|]);
  by apply elem_of_nil in Hin.

(** C10. When the submit button is enabled, a click runs [handleSubmit]
    past both validation alerts: in voice mode there is a recorded blob
    and no recording is running, in text mode the text has a character
    that is not white space; in both the upload starts. *)
Theorem enabled_submit_passes_validation (s : State) :
  submit_disabled s = false →
  click_submit s = Some (handleSubmit s)
  ∧ (AlertRecordFirst ∉ handleSubmit s)
  ∧ (AlertEnterStory ∉ handleSubmit s)
  ∧ isUploading s = false
  ∧ isRecording s = false
  ∧ match inputMode s with
    | voice => ∃ blob, audioBlob s = Some blob
                       ∧ handleSubmit s = [SetIsUploading true; UploadAudio blob]
    | text => Exists (λ c, is_white_space c = false) (textInput s)
              ∧ handleSubmit s = [SetIsUploading true; ProcessStoryText (textInput s)]
    end.
Proof.
  intros Hen. unfold click_submit. rewrite Hen.
  unfold submit_disabled in Hen.
  apply orb_false_iff in Hen as [Hen Hrec].
  apply orb_false_iff in Hen as [Hcan Hup].
  apply negb_false_iff in Hcan. unfold canSubmit in Hcan.
  unfold handleSubmit.
  destruct (inputMode s).
  - apply andb_true_iff in Hcan as [Hblob _].
    apply bool_decide_eq_true in Hblob as [blob Hblob]. rewrite Hblob.
    split_and!; [done|no_alert|no_alert|done|done|by exists blob].
  - apply Nat.ltb_lt in Hcan.
    assert (trim (textInput s) ≠ []) as Hne by (intros He; rewrite He in Hcan; simpl in Hcan; lia).
    rewrite bool_decide_eq_false_2 by done.
    split_and!; [done|no_alert|no_alert|done|done| |done].
    rewrite trim_nil in Hne.
    apply not_Forall_Exists in Hne; [|apply _].
    eapply Exists_impl; [done|]. simpl. intros c Hc. by destruct (is_white_space c).
Qed.

Lemma enabled_submit_passes_validation_witness :
  let s := {| isRecording := false; audioBlob := None; isUploading := false;
              inputMode := text; textInput := [0x3000; 0x4ECA; 0x5929; 0x20]%N |} in
  submit_disabled s = false
  ∧ click_submit s = Some [SetIsUploading true; ProcessStoryText (textInput s)].
Proof.
  intros s.
  assert (submit_disabled s = false) as Hen by (vm_compute; reflexivity).
  split; [exact Hen|].
  destruct (enabled_submit_passes_validation s Hen) as (Hclick & _ & _ & _ & _ & Hmode).
  simpl in Hmode. destruct Hmode as [_ Hrun].
  rewrite Hclick, Hrun. reflexivity.
Defined.

End VoiceInputFacts.

(* ===================================================================== *)
(** * Part III: further properties of the code                            *)
(* ===================================================================== *)

(** ** The history reader *)
Section RecentRecommendations.
Import CocktailAgent.

(** For a positive limit the reader returns the last [limit] names of the
    session, or all of them when there are fewer; a session that was
    never recorded has none. *)
Theorem recent_keeps_the_last (history : History) (session_id : string) (limit : Z) :
  (0 < limit)%Z →
  let kept := _get_recent_recommendations history session_id limit in
  kept = drop (length (stored history session_id) - Z.to_nat limit) (stored history session_id)
  ∧ length kept = (length (stored history session_id) `min` Z.to_nat limit)%nat
  ∧ (history !! session_id = None → kept = []).
Proof.
  intros Hl kept.
  assert (kept = drop (length (stored history session_id) - Z.to_nat limit)
                      (stored history session_id)) as Hk.
  { unfold kept, _get_recent_recommendations.
    replace limit with (Z.of_nat (Z.to_nat limit)) at 1 by lia.
    by rewrite slice_last_drop by lia. }
  split_and!; [done| |].
  - rewrite Hk, length_drop. lia.
  - intros Hnone. rewrite Hk. unfold stored. by rewrite Hnone.
Qed.

Lemma recent_keeps_the_last_witness :
  (0 < 2)%Z
  ∧ _get_recent_recommendations {[ "s" := ["a"; "b"; "c"] ]}%string "s" 2 = ["b"; "c"]%string.
Proof.
  assert (0 < 2)%Z as Hl by lia.
  split; [exact Hl|].
  destruct (recent_keeps_the_last {[ "s" := ["a"; "b"; "c"] ]}%string "s" 2 Hl)
    as (Hk & _ & _).
  rewrite Hk. vm_compute. reflexivity.
Defined.

(** A limit of 0 does not give the empty list: [[-0:]] is the whole
    history. A negative limit [-n] drops the [n] oldest names and keeps
    the rest, however many. *)
Theorem recent_with_limit_not_positive (history : History) (session_id : string) (n : nat) :
  _get_recent_recommendations history session_id (- Z.of_nat n)
  = drop n (stored history session_id).
Proof.
  unfold _get_recent_recommendations, slice_from. fold (stored history session_id).
  rewrite Z.opp_involutive.
  destruct (Z.ltb_spec (Z.of_nat n) 0) as [Hneg|_]; [lia|].
  destruct (decide (n ≤ length (stored history session_id))) as [Hle|Hgt].
  - f_equal. lia.
  - rewrite Z.min_r, Nat2Z.id by lia.
    by rewrite !drop_ge by lia.
Qed.

End RecentRecommendations.

(** ** The genericity penalty beyond tag sets *)
Section PenaltyFacts.
Import CocktailAgent.
Local Open Scope Q_scope.

Lemma penalty_of_count (c : Cocktail) :
  calculate_universality_penalty c =
    match counted (default [] (Need c)) with
    | 0%nat => 1
    | 1%nat => 9 # 10
    | _ => 75 # 100
    end.
Proof.
  unfold calculate_universality_penalty, counted. rewrite common_count_filter.
  destruct (length _) as [|[|n]]; [done..|].
  destruct (Z.leb_spec 2 (Z.of_nat (S (S n)))); [done|lia].
Qed.

Lemma counted_lower (needs : list string) :
  counted needs = length (filter (λ tag, tag ∈ COMMON_NEEDS) (lower <$> needs)).
Proof.
  unfold counted. induction needs as [|x l IH]; [done|].
  rewrite fmap_cons, !filter_cons.
  destruct (decide (lower x ∈ COMMON_NEEDS)); simpl; by rewrite IH.
Qed.

Lemma counted_submseteq (needs more : list string) :
  needs ⊆+ more → (counted needs ≤ counted more)%nat.
Proof.
  unfold counted. induction 1 as [|x l1 l2 _ IH|x y l|x l1 l2 _ IH|l1 l2 l3 _ IH1 _ IH2].
  - done.
  - rewrite !filter_cons. destruct (decide (lower x ∈ COMMON_NEEDS)); simpl; lia.
  - apply Nat.eq_le_incl, Permutation_length, filter_Permutation, Permutation_swap.
  - rewrite filter_cons. destruct (decide (lower x ∈ COMMON_NEEDS)); simpl; lia.
  - lia.
Qed.

(** More needs never raise the factor: a cocktail's factor is at most
    that of the cocktail with any part of its needs. *)
Theorem more_needs_never_raise_the_factor (c : Cocktail) (needs more : list string) :
  needs ⊆+ more →
  calculate_universality_penalty (with_needs c more)
  <= calculate_universality_penalty (with_needs c needs).
Proof.
  intros Hsub. rewrite !penalty_of_count. simpl.
  pose proof (counted_submseteq _ _ Hsub) as Hle.
  destruct (counted needs) as [|[|n]], (counted more) as [|[|m]];
    try lia; by vm_compute.
Qed.

Lemma more_needs_never_raise_the_factor_witness :
  ["nostalgia"; "comfort"]%string ⊆+ ["ease"; "nostalgia"; "comfort"]%string
  ∧ calculate_universality_penalty
      (with_needs cuba_libre ["ease"; "nostalgia"; "comfort"]%string)
    <= calculate_universality_penalty
         (with_needs cuba_libre ["nostalgia"; "comfort"]%string).
Proof.
  assert (["nostalgia"; "comfort"]%string ⊆+ ["ease"; "nostalgia"; "comfort"]%string)
    as Hsub by (apply submseteq_cons; reflexivity).
  split; [exact Hsub|].
  exact (more_needs_never_raise_the_factor cuba_libre _ _ Hsub).
Defined.

(** The factor depends on the needs only through their lower-cased
    spellings, in any order: two need lists that agree up to letter case
    and order give the same factor. *)
Theorem factor_ignores_case_and_order (c d : Cocktail) :
  lower <$> default [] (Need c) ≡ₚ lower <$> default [] (Need d) →
  calculate_universality_penalty c = calculate_universality_penalty d.
Proof.
  intros Hperm. rewrite !penalty_of_count, !counted_lower.
  by rewrite Hperm.
Qed.

Lemma factor_ignores_case_and_order_witness :
  let c := entry "c" 3 3 3 (Some ["Comfort"; "bold"; "EASE"]%string) in
  let d := entry "d" 1 2 3 (Some ["ease"; "comfort"; "Bold"]%string) in
  lower <$> default [] (Need c) ≡ₚ lower <$> default [] (Need d)
  ∧ calculate_universality_penalty c = calculate_universality_penalty d.
Proof.
  intros c d.
  assert (lower <$> default [] (Need c) ≡ₚ lower <$> default [] (Need d)) as Hperm.
  { change (["comfort"; "bold"; "ease"]%string ≡ₚ ["ease"; "comfort"; "bold"]%string).
    symmetry. apply (Permutation_cons_append ["comfort"; "bold"]%string "ease"%string). }
  split; [exact Hperm|].
  exact (factor_ignores_case_and_order c d Hperm).
Defined.

End PenaltyFacts.

(** ** The selector on ranked pools *)
Section SelectorFacts.
Import CocktailAgent.
Local Open Scope Q_scope.

(** Any number of draws succeeds when the weights are not negative and
    their total is positive: every draw yields a member of the
    population, and a random source that keeps returning one number keeps
    selecting one member. *)
Lemma choices_draws {A} (rng : nat → Q) (population : list A) (ws : list Q) (k : nat) :
  length ws = length population → Forall (λ w, 0 <= w) ws → 0 < sum ws →
  ∃ l, choices rng population ws k = Ok l
       ∧ length l = k
       ∧ Forall (λ x, x ∈ population) l
       ∧ ((∀ i, rng i = rng 0%nat) → ∃ x, x ∈ population ∧ l = replicate k x).
Proof.
  intros Hlen Hpos Htotal.
  assert (0 < length ws)%nat as Hn.
  { destruct ws; [|simpl; lia]. rewrite sum_nil in Htotal. lra. }
  destruct population as [|x0 population'] eqn:Hpop; [simpl in Hlen; lia|].
  rewrite <- Hpop in *. clear Hpop.
  unfold choices. rewrite length_accumulate, Hlen, Nat.eqb_refl. cbn [negb].
  rewrite last_lookup, length_accumulate.
  destruct (accumulate ws !! pred (length ws)) as [total|] eqn:Hlast; cycle 1.
  { apply lookup_ge_None in Hlast. rewrite length_accumulate in Hlast. lia. }
  assert (total == sum ws) as Htot.
  { rewrite <- (nth_lookup_Some _ _ 0 _ Hlast), nth_accumulate by lia.
    rewrite take_ge by lia. reflexivity. }
  destruct (Qle_bool total 0) eqn:Hle.
  { apply Qle_bool_iff in Hle. lra. }
  assert (∀ i j, (i ≤ j < length ws)%nat
                 → nth i (accumulate ws) 0 <= nth j (accumulate ws) 0) as Hmono.
  { intros i j Hij. rewrite !nth_accumulate by lia. apply sum_take_mono; [done|lia]. }
  set (index := λ i : nat,
         bisect (accumulate ws) (rng i * total) 0 (length population - 1)).
  assert (∀ i, (index i < length population)%nat) as Hindex.
  { intros i. unfold index, bisect.
    destruct (bisect_loop_spec (accumulate ws) (rng i * total) (length ws) Hmono
                (length population - 1 - 0) 0%nat (length population - 1)%nat)
      as (Hr & _); lia. }
  set (pick := λ i : nat, default x0 (population !! index i)).
  assert (∀ i, population !! index i = Some (pick i)) as Hpick.
  { intros i. unfold pick.
    destruct (lookup_lt_is_Some_2 population (index i) (Hindex i)) as [x Hx].
    by rewrite Hx. }
  exists (pick <$> seq 0 k). split_and!.
  - apply for_each_ok. intros i _. unfold subscript. fold (index i). by rewrite Hpick.
  - by rewrite length_fmap, length_seq.
  - apply Forall_fmap, Forall_forall. intros i _. simpl.
    eapply list_elem_of_lookup_2, Hpick.
  - intros Hconst. exists (pick 0%nat). split.
    { eapply list_elem_of_lookup_2, Hpick. }
    rewrite (const_fmap pick (seq 0 k) (pick 0%nat)); [by rewrite length_seq|].
    intros i j _. unfold pick, index. by rewrite Hconst.
Qed.

(** The weights of a ranked pool, with their bounds. *)
Lemma ranked_probabilities (pool : list Candidate) (top bottom : Candidate) :
  ranked pool → head pool = Some top → last pool = Some bottom →
  0 < sum (draw_weight top bottom <$> pool)
  ∧ (∀ c, c ∈ pool → (1 # 10) <= draw_weight top bottom c <= 1)
  ∧ ∃ ps, selection_probabilities pool = Ok ps
          ∧ Forall2 (λ c p, p == draw_weight top bottom c
                                  / sum (draw_weight top bottom <$> pool)) pool ps.
Proof.
  intros Hr Htop Hbot.
  assert (0 < length pool)%nat as Hn by (destruct pool; [done|simpl; lia]).
  pose proof (of_nat_pos _ Hn) as Hnq.
  assert (∀ c, c ∈ pool → 1 # 10 <= draw_weight top bottom c <= 1) as Hw.
  { intros c Hc. by apply draw_weight_bounds, (ranked_extremes pool). }
  destruct (sum_fmap_bounds (draw_weight top bottom) (1 # 10) 1 pool Hw) as [HW1 HW2].
  assert (0 < sum (draw_weight top bottom <$> pool)) as HW by lra.
  split_and!; [done..|]. by apply selection_probabilities_weights.
Qed.

Lemma ranked_ends (pool : list Candidate) :
  pool ≠ [] → ∃ top bottom, head pool = Some top ∧ last pool = Some bottom.
Proof.
  intros Hne.
  destruct (head pool) as [top|] eqn:Htop; [|by destruct pool].
  destruct (last pool) as [bottom|] eqn:Hbot; [|by apply last_None in Hbot].
  by exists top, bottom.
Qed.

Lemma selector_on_ranked (rng : nat → Q) (pool : list Candidate) (k : nat) :
  ranked pool →
  ∃ selected,
    _diversity_weighted_random_select rng pool k = Ok selected
    ∧ length selected = (k `min` length pool)%nat
    ∧ Forall (λ c, c ∈ pool) selected
    ∧ ((k < length pool)%nat → (∀ i, rng i = rng 0%nat) →
       ∃ c, c ∈ pool ∧ selected = replicate k c).
Proof.
  intros Hr. unfold _diversity_weighted_random_select.
  destruct (Nat.leb_spec (length pool) k) as [Hle|Hgt].
  { exists pool. split_and!; [done|lia| |lia].
    by apply Forall_forall. }
  destruct (ranked_ends pool) as (top & bottom & Htop & Hbot);
    [by destruct pool; [simpl in Hgt; lia|]|].
  destruct (ranked_probabilities pool top bottom Hr Htop Hbot)
    as (HW & Hw & ps & Hps & Hall).
  rewrite Hps. cbn [mbind result_bind].
  destruct (choices_draws rng pool ps k) as (l & Hl & Hlen & Hin & Hrep).
  - symmetry. by eapply Forall2_length.
  - apply Forall_forall. intros p Hp. apply list_elem_of_lookup in Hp as [i Hi].
    destruct (Forall2_lookup_r _ _ _ _ _ Hall Hi) as (c & Hc & ->).
    apply list_elem_of_lookup_2 in Hc. destruct (Hw c Hc) as [Hc1 _].
    apply Qle_shift_div_l; lra.
  - rewrite (Forall2_sum_div (draw_weight top bottom) _ pool ps Hall).
    apply Qlt_shift_div_l; lra.
  - exists l. split_and!; [done|lia|done|]. intros _ Hconst. by apply Hrep.
Qed.

(** The draw is with replacement: when the pool has more than [k]
    candidates and the random source returns the same number at every
    call, the [k] selected candidates are [k] copies of one member. *)
Theorem repeated_number_repeats_candidate (rng : nat → Q) (pool : list Candidate) (k : nat) :
  ranked pool → (k < length pool)%nat → (∀ i, rng i = rng 0%nat) →
  ∃ c, c ∈ pool ∧ _diversity_weighted_random_select rng pool k = Ok (replicate k c).
Proof.
  intros Hr Hk Hconst.
  destruct (selector_on_ranked rng pool k Hr) as (selected & Hsel & _ & _ & Hrep).
  destruct (Hrep Hk Hconst) as (c & Hc & ->). by exists c.
Qed.

Lemma repeated_number_repeats_candidate_witness :
  ranked three_two_one ∧ (2 < length three_two_one)%nat
  ∧ (∀ i : nat, (λ _ : nat, 7 # 10) i = (λ _ : nat, 7 # 10) 0%nat)
  ∧ ∃ c, _diversity_weighted_random_select (λ _, 7 # 10) three_two_one 2 = Ok [c; c].
Proof.
  assert (ranked three_two_one) as Hr
    by (unfold ranked, three_two_one; repeat constructor; discriminate).
  assert (2 < length three_two_one)%nat as Hk by (simpl; lia).
  assert (∀ i : nat, (λ _ : nat, 7 # 10) i = (λ _ : nat, 7 # 10) 0%nat) as Hconst
    by reflexivity.
  split; [exact Hr|]. split; [exact Hk|]. split; [exact Hconst|].
  destruct (repeated_number_repeats_candidate (λ _, 7 # 10) three_two_one 2 Hr Hk Hconst)
    as (c & _ & Hsel).
  exists c. exact Hsel.
Defined.

(** *** How the probabilities follow the scores *)

Lemma draw_weight_mono (top bottom c d : Candidate) :
  (score d <= score c → draw_weight top bottom d <= draw_weight top bottom c)
  ∧ (score d < score c → draw_weight top bottom d < draw_weight top bottom c).
Proof.
  unfold draw_weight, range_share.
  pose proof (score_range_pos (score top) (score bottom)) as Hpos.
  set (r := score_range (score top) (score bottom)) in *.
  split; intros Hs.
  - assert ((score d - score bottom) / r <= (score c - score bottom) / r).
    { unfold Qdiv. apply Qmult_le_compat_r; [lra|]. apply Qinv_le_0_compat. lra. }
    lra.
  - assert ((score d - score bottom) / r < (score c - score bottom) / r).
    { unfold Qdiv. apply Qmult_lt_compat_r; [|lra]. apply Qinv_lt_0_compat. lra. }
    lra.
Qed.

Lemma Qdiv_le_mono (a b w : Q) : 0 < w → a <= b → a / w <= b / w.
Proof.
  intros Hw Hab. unfold Qdiv. apply Qmult_le_compat_r; [done|].
  apply Qinv_le_0_compat. lra.
Qed.

Lemma Qdiv_lt_mono (a b w : Q) : 0 < w → a < b → a / w < b / w.
Proof.
  intros Hw Hab. unfold Qdiv. apply Qmult_lt_compat_r; [|done].
  by apply Qinv_lt_0_compat.
Qed.

(** In a ranked pool a candidate with a higher score has a higher
    probability, and one with the same or a higher score has at least the
    same probability. *)
Theorem higher_score_higher_probability (pool : list Candidate) (ps : list Q)
    (i j : nat) (c d : Candidate) (p q : Q) :
  ranked pool → selection_probabilities pool = Ok ps →
  pool !! i = Some c → pool !! j = Some d → ps !! i = Some p → ps !! j = Some q →
  (score d <= score c → q <= p) ∧ (score d < score c → q < p).
Proof.
  intros Hr Hps Hc Hd Hp Hq.
  destruct (ranked_ends pool) as (top & bottom & Htop & Hbot);
    [by intros ->|].
  destruct (ranked_probabilities pool top bottom Hr Htop Hbot)
    as (HW & _ & ps' & Hps' & Hall).
  rewrite Hps in Hps'. injection Hps' as <-.
  pose proof (Forall2_lookup_lr _ _ _ _ _ _ Hall Hc Hp) as Hcp.
  pose proof (Forall2_lookup_lr _ _ _ _ _ _ Hall Hd Hq) as Hdq.
  cbv beta in Hcp, Hdq. rewrite Hcp, Hdq.
  destruct (draw_weight_mono top bottom c d) as [Hle Hlt].
  split; intros Hs.
  - apply Qdiv_le_mono; [done|]. by apply Hle.
  - apply Qdiv_lt_mono; [done|]. by apply Hlt.
Qed.

Lemma higher_score_higher_probability_witness :
  let ps := three_two_one_probabilities in
  let top := {| cocktail := entry "Mojito" 3 3 3 None; score := 3 |} in
  let bottom := {| cocktail := entry "Daiquiri" 3 3 3 None; score := 1 |} in
  ranked three_two_one ∧ selection_probabilities three_two_one = Ok ps
  ∧ three_two_one !! 0%nat = Some top ∧ three_two_one !! 2%nat = Some bottom
  ∧ ps !! 0%nat = Some (default 0 (ps !! 0%nat))
  ∧ ps !! 2%nat = Some (default 0 (ps !! 2%nat))
  ∧ default 0 (ps !! 2%nat) < default 0 (ps !! 0%nat).
Proof.
  intros ps top bottom.
  assert (ranked three_two_one) as Hr
    by (unfold ranked, three_two_one; repeat constructor; discriminate).
  assert (selection_probabilities three_two_one = Ok ps) as Hps
    by (vm_compute; reflexivity).
  assert (three_two_one !! 0%nat = Some top) as Hc by reflexivity.
  assert (three_two_one !! 2%nat = Some bottom) as Hd by reflexivity.
  assert (ps !! 0%nat = Some (default 0 (ps !! 0%nat))) as Hp by (vm_compute; reflexivity).
  assert (ps !! 2%nat = Some (default 0 (ps !! 2%nat))) as Hq by (vm_compute; reflexivity).
  split_and!; [exact Hr|exact Hps|exact Hc|exact Hd|exact Hp|exact Hq|].
  apply (higher_score_higher_probability three_two_one ps 0 2 top bottom _ _
           Hr Hps Hc Hd Hp Hq).
  reflexivity.
Defined.

Lemma draw_weight_top (top bottom : Candidate) :
  score bottom < score top → draw_weight top bottom top == 1.
Proof.
  intros Hlt. unfold draw_weight, range_share, score_range.
  destruct (Qlt_le_dec (score bottom) (score top)); [|lra]. field. lra.
Qed.

Lemma draw_weight_bottom (top bottom : Candidate) : draw_weight top bottom bottom == 1 # 10.
Proof.
  unfold draw_weight, range_share.
  pose proof (score_range_pos (score top) (score bottom)). field. lra.
Qed.

(** The ends of the probabilities of a ranked pool belong to its ends. *)
Lemma probabilities_of_the_ends (pool : list Candidate) (top bottom : Candidate)
    (ps : list Q) :
  ranked pool → head pool = Some top → last pool = Some bottom →
  selection_probabilities pool = Ok ps →
  let W := sum (draw_weight top bottom <$> pool) in
  0 < W ∧ (∀ c, c ∈ pool → (1 # 10) <= draw_weight top bottom c <= 1)
  ∧ ∃ p_top p_bottom, head ps = Some p_top ∧ last ps = Some p_bottom
      ∧ p_top == draw_weight top bottom top / W
      ∧ p_bottom == draw_weight top bottom bottom / W.
Proof.
  intros Hr Htop Hbot Hps W.
  destruct (ranked_probabilities pool top bottom Hr Htop Hbot)
    as (HW & Hw & ps' & Hps' & Hall).
  rewrite Hps in Hps'. injection Hps' as <-.
  split_and!; [done..|].
  pose proof (Forall2_length _ _ _ Hall) as Hlen.
  rewrite head_lookup in Htop. rewrite last_lookup in Hbot.
  destruct (Forall2_lookup_l _ _ _ _ _ Hall Htop) as (p_top & Hpt & Ht).
  destruct (Forall2_lookup_l _ _ _ _ _ Hall Hbot) as (p_bottom & Hpb & Hb).
  exists p_top, p_bottom.
  rewrite head_lookup, last_lookup, <- Hlen. by split_and!.
Qed.

(** When the scores of a ranked pool are not all equal, the first
    candidate is exactly ten times as likely to be drawn as the last. *)
Theorem top_ten_times_as_likely_as_bottom (pool : list Candidate) (top bottom : Candidate)
    (ps : list Q) :
  ranked pool → head pool = Some top → last pool = Some bottom →
  score bottom < score top →
  selection_probabilities pool = Ok ps →
  ∃ p_top p_bottom, head ps = Some p_top ∧ last ps = Some p_bottom
                    ∧ p_top == 10 * p_bottom.
Proof.
  intros Hr Htop Hbot Hlt Hps.
  destruct (probabilities_of_the_ends pool top bottom ps Hr Htop Hbot Hps)
    as (HW & _ & p_top & p_bottom & Hpt & Hpb & Ht & Hb).
  exists p_top, p_bottom. split_and!; [done..|].
  rewrite Ht, Hb, (draw_weight_top _ _ Hlt), draw_weight_bottom. field. lra.
Qed.

Lemma top_ten_times_as_likely_as_bottom_witness :
  let ps := three_two_one_probabilities in
  let top := {| cocktail := entry "Mojito" 3 3 3 None; score := 3 |} in
  let bottom := {| cocktail := entry "Daiquiri" 3 3 3 None; score := 1 |} in
  ranked three_two_one ∧ head three_two_one = Some top ∧ last three_two_one = Some bottom
  ∧ score bottom < score top
  ∧ selection_probabilities three_two_one = Ok ps
  ∧ ∃ p_top p_bottom, head ps = Some p_top ∧ last ps = Some p_bottom
                      ∧ p_top == 10 * p_bottom.
Proof.
  intros ps top bottom.
  assert (ranked three_two_one) as Hr
    by (unfold ranked, three_two_one; repeat constructor; discriminate).
  assert (head three_two_one = Some top) as Htop by reflexivity.
  assert (last three_two_one = Some bottom) as Hbot by reflexivity.
  assert (score bottom < score top) as Hlt by reflexivity.
  assert (selection_probabilities three_two_one = Ok ps) as Hps
    by (vm_compute; reflexivity).
  split_and!; [exact Hr|exact Htop|exact Hbot|exact Hlt|exact Hps|].
  exact (top_ten_times_as_likely_as_bottom three_two_one top bottom ps
           Hr Htop Hbot Hlt Hps).
Defined.

(** The first candidate of a ranked pool of [K] is drawn with a
    probability between [1/K] and [10/(K + 9)], and the last one with at
    most [1/K]: for [K = 10] the best match wins at most 10 draws in 19. *)
Theorem top_probability_bounds (pool : list Candidate) (ps : list Q) :
  ranked pool → selection_probabilities pool = Ok ps →
  let K := inject_Z (Z.of_nat (length pool)) in
  ∃ p_top p_bottom, head ps = Some p_top ∧ last ps = Some p_bottom
                    ∧ 1 / K <= p_top ∧ p_top <= 10 / (K + 9)
                    ∧ p_bottom <= 1 / K.
Proof.
  intros Hr Hps K.
  assert (pool ≠ []) as Hne.
  { intros ->. unfold selection_probabilities in Hps. simpl in Hps. discriminate. }
  destruct (ranked_ends pool Hne) as (top & bottom & Htop & Hbot).
  destruct (probabilities_of_the_ends pool top bottom ps Hr Htop Hbot Hps)
    as (HW & Hw & p_top & p_bottom & Hpt & Hpb & Ht & Hb).
  set (W := sum (draw_weight top bottom <$> pool)) in *.
  assert (0 < length pool)%nat as Hn by (destruct pool; [done|simpl; lia]).
  pose proof (of_nat_pos _ Hn) as HK. fold K in HK.
  assert (top ∈ pool) as Hintop by (by apply head_Some_elem_of).
  destruct (Hw top Hintop) as [Ht1 Ht2].
  set (wt := draw_weight top bottom top) in *.
  (* every weight lies between 0.1 and the weight of the first *)
  assert (∀ c, c ∈ pool → (1 # 10) <= draw_weight top bottom c <= wt) as Hbetween.
  { intros c Hc. destruct (Hw c Hc) as [Hc1 _]. split; [done|].
    apply draw_weight_mono. by eapply ranked_extremes. }
  destruct (sum_fmap_bounds (draw_weight top bottom) (1 # 10) wt pool Hbetween)
    as [_ Hupper]. fold W K in Hupper.
  (* the others weigh at least 0.1 each *)
  assert (wt + (1 # 10) * (K - 1) <= W) as Hlower.
  { destruct pool as [|first rest]; [done|]. simpl in Htop. simplify_eq.
    unfold W. rewrite fmap_cons, sum_cons. fold wt.
    destruct (sum_fmap_bounds (draw_weight top bottom) (1 # 10) 1 rest) as [Hrest _].
    { intros c Hc. apply Hw. by right. }
    unfold K. cbn [length]. rewrite of_nat_S. lra. }
  exists p_top, p_bottom. split_and!; [done..| | |].
  - rewrite Ht. fold wt. apply Qle_shift_div_l; [done|].
    assert (1 / K * W == W / K) as -> by (field; lra).
    apply Qle_shift_div_r; lra.
  - rewrite Ht. fold wt. apply Qle_shift_div_r; [done|].
    assert (10 / (K + 9) * W == (10 * W) / (K + 9)) as -> by (field; lra).
    apply Qle_shift_div_l; [lra|].
    assert (wt * (K - 1) <= 1 * (K - 1)) as Hprod.
    { apply Qmult_le_compat_r; [done|].
      assert (1 <= K) by (unfold K; change 1 with (inject_Z 1); rewrite <- Zle_Qle; lia).
      lra. }
    lra.
  - rewrite Hb, draw_weight_bottom.
    apply Qle_shift_div_r; [done|].
    assert (1 / K * W == W / K) as -> by (field; lra).
    apply Qle_shift_div_l; [done|]. lra.
Qed.

Lemma top_probability_bounds_witness :
  let ps := three_two_one_probabilities in
  ranked three_two_one ∧ selection_probabilities three_two_one = Ok ps
  ∧ ∃ p_top, head ps = Some p_top ∧ p_top <= 10 / (3 + 9).
Proof.
  intros ps.
  assert (ranked three_two_one) as Hr
    by (unfold ranked, three_two_one; repeat constructor; discriminate).
  assert (selection_probabilities three_two_one = Ok ps) as Hps
    by (vm_compute; reflexivity).
  split; [exact Hr|]. split; [exact Hps|].
  destruct (top_probability_bounds three_two_one ps Hr Hps)
    as (p_top & _ & Hpt & _ & _ & Hle & _).
  exists p_top. split; [exact Hpt | exact Hle].
Defined.

(** *** Scores on another scale *)

Lemma rescale_order (a b x y : Q) : 0 < a → (a * x + b < a * y + b ↔ x < y).
Proof.
  intros Ha. rewrite <- (Qmult_lt_l x y a Ha). split; intros; lra.
Qed.

Lemma draw_weight_rescale (a b : Q) (top bottom c : Candidate) :
  0 < a → score bottom <= score c <= score top →
  draw_weight (rescale a b top) (rescale a b bottom) (rescale a b c)
  == draw_weight top bottom c.
Proof.
  intros Ha [Hlo Hhi]. unfold draw_weight, range_share, score_range, rescale. simpl.
  destruct (Qlt_le_dec (a * score bottom + b) (a * score top + b)) as [Hs|Hs];
    destruct (Qlt_le_dec (score bottom) (score top)) as [Ho|Ho].
  - field. split; lra.
  - apply rescale_order in Hs; [lra|done].
  - apply (rescale_order a b) in Ho; [lra|done].
  - assert (score c - score bottom == 0) as Hzero by lra.
    assert (a * score c + b - (a * score bottom + b) == a * (score c - score bottom))
      as -> by ring.
    rewrite Hzero. field.
Qed.

Lemma ranked_rescale (a b : Q) (pool : list Candidate) :
  0 < a → ranked pool → ranked (rescale a b <$> pool).
Proof.
  intros Ha. unfold ranked. apply StronglySorted_fmap.
  intros x y Hxy. simpl.
  assert (a * score y <= a * score x) by (apply Qmult_le_l; done). lra.
Qed.

(** The probabilities depend on the scores only up to scale and offset:
    replacing every score [s] of a ranked pool by [a·s + b] with [a > 0]
    leaves every probability as it is. *)
Theorem probabilities_survive_rescaling (pool : list Candidate) (a b : Q) (ps : list Q) :
  ranked pool → 0 < a → selection_probabilities pool = Ok ps →
  ∃ ps', selection_probabilities (rescale a b <$> pool) = Ok ps' ∧ Forall2 Qeq ps ps'.
Proof.
  intros Hr Ha Hps.
  assert (pool ≠ []) as Hne.
  { intros ->. unfold selection_probabilities in Hps. simpl in Hps. discriminate. }
  destruct (ranked_ends pool Hne) as (top & bottom & Htop & Hbot).
  destruct (ranked_probabilities pool top bottom Hr Htop Hbot)
    as (HW & Hw & ps0 & Hps0 & Hall).
  rewrite Hps in Hps0. injection Hps0 as <-.
  assert (head (rescale a b <$> pool) = Some (rescale a b top)) as Htop'
    by (destruct pool; [done|]; simpl in *; by simplify_eq).
  assert (last (rescale a b <$> pool) = Some (rescale a b bottom)) as Hbot'
    by (by rewrite fmap_last, Hbot).
  destruct (ranked_probabilities (rescale a b <$> pool) _ _
              (ranked_rescale a b pool Ha Hr) Htop' Hbot')
    as (HW' & _ & ps' & Hps' & Hall').
  exists ps'. split; [done|].
  assert (sum (draw_weight (rescale a b top) (rescale a b bottom)
                 <$> (rescale a b <$> pool))
          == sum (draw_weight top bottom <$> pool)) as HWeq.
  { rewrite <- list_fmap_compose. apply sum_fmap_ext. intros c Hc. simpl.
    apply draw_weight_rescale; [done|]. by eapply ranked_extremes. }
  apply Forall2_fmap_l in Hall'.
  apply Forall2_same_length_lookup. split.
  { rewrite <- (Forall2_length _ _ _ Hall). by rewrite (Forall2_length _ _ _ Hall'). }
  intros i p p' Hp Hp'.
  destruct (Forall2_lookup_r _ _ _ _ _ Hall Hp) as (c & Hc & Hcp).
  pose proof (Forall2_lookup_lr _ _ _ _ _ _ Hall' Hc Hp') as Hcp'. cbv beta in Hcp'.
  eapply Qeq_trans; [exact Hcp|]. apply Qeq_sym. eapply Qeq_trans; [exact Hcp'|].
  rewrite HWeq.
  rewrite draw_weight_rescale; [reflexivity|done|].
  eapply ranked_extremes; [done..|]. by eapply list_elem_of_lookup_2.
Qed.

Lemma probabilities_survive_rescaling_witness :
  let ps := three_two_one_probabilities in
  ranked three_two_one ∧ 0 < 100 ∧ selection_probabilities three_two_one = Ok ps
  ∧ ∃ ps', selection_probabilities (rescale 100 (-7) <$> three_two_one) = Ok ps'
           ∧ Forall2 Qeq ps ps'.
Proof.
  intros ps.
  assert (ranked three_two_one) as Hr
    by (unfold ranked, three_two_one; repeat constructor; discriminate).
  assert (0 < 100) as Ha by reflexivity.
  assert (selection_probabilities three_two_one = Ok ps) as Hps
    by (vm_compute; reflexivity).
  split; [exact Hr|]. split; [exact Ha|]. split; [exact Hps|].
  exact (probabilities_survive_rescaling three_two_one 100 (-7) ps Hr Ha Hps).
Defined.

End SelectorFacts.

(** ** Submitting a story *)
Section SubmitFacts.
Import Js VoiceInputScreen SubmitFlow.
Local Set Warnings "-clear-no-such-hyp".

Lemma errorMessage_truthy (e : ApiError) : truthy (errorMessage e) = true.
Proof.
  unfold errorMessage, or.
  destruct (truthy (detail e)) eqn:Hd; [by rewrite Hd|].
  by destruct (truthy (message e)) eqn:Hm.
Qed.

Ltac in_list H :=
  repeat (apply elem_of_cons in H as [H|H]; [try discriminate|]);
  try (by apply elem_of_nil in H).

(** What passes the button passes the validation. *)
Lemma enabled_run (s : State) (upload process : Settled Body) :
  submit_disabled s = false →
  handleSubmit_run s upload process
  = match inputMode s with
    | voice =>
        match audioBlob s with
        | Some blob =>
            SetUploading true :: UploadAudioRequest blob ::
            match upload with
            | Resolved (Some uploadResponse) =>
                ProcessStoryRequest (task_id uploadResponse) None :: after_process process
            | Resolved None => failed NULL_READ
            | Rejected e => failed e
            end
        | None => []
        end
    | text => SetUploading true :: ProcessStoryRequest JsUndefined (Some (textInput s))
                :: after_process process
    end
  ∧ (inputMode s = voice → is_Some (audioBlob s)).
Proof.
  intros Hen. unfold submit_disabled in Hen.
  apply orb_false_iff in Hen as [Hen _]. apply orb_false_iff in Hen as [Hcan _].
  apply negb_false_iff in Hcan. unfold canSubmit in Hcan. unfold handleSubmit_run.
  destruct (inputMode s).
  - apply andb_true_iff in Hcan as [Hblob _].
    apply bool_decide_eq_true in Hblob as [blob Hblob]. rewrite Hblob. by split.
  - apply Nat.ltb_lt in Hcan.
    rewrite bool_decide_eq_false_2; [done|].
    intros He. rewrite He in Hcan. simpl in Hcan. lia.
Qed.

Ltac between l := exists l; split; [done|]; intros b H; in_list H.

(** A submission that the button lets through sets the uploading flag
    first and clears it last, whether the requests resolve or are
    rejected, and touches it nowhere in between. *)
Theorem submit_always_clears_uploading (s : State) (upload process : Settled Body) :
  submit_disabled s = false →
  ∃ between,
    handleSubmit_run s upload process
    = SetUploading true :: between ++ [SetUploading false]
    ∧ ∀ b, SetUploading b ∉ between.
Proof.
  intros Hen. destruct (enabled_run s upload process Hen) as [Hrun Hblob]. rewrite Hrun.
  destruct (inputMode s).
  - destruct Hblob as [blob Hb]; [done|]. rewrite Hb.
    destruct upload as [[u|]|e]; [destruct process as [[r|]|e]| |]; simpl.
    + between [UploadAudioRequest blob; ProcessStoryRequest (task_id u) None;
               RecordingComplete (task_id r)].
    + between [UploadAudioRequest blob; ProcessStoryRequest (task_id u) None;
               AlertFailed (errorMessage NULL_READ)].
    + between [UploadAudioRequest blob; ProcessStoryRequest (task_id u) None;
               AlertFailed (errorMessage e)].
    + between [UploadAudioRequest blob; AlertFailed (errorMessage NULL_READ)].
    + between [UploadAudioRequest blob; AlertFailed (errorMessage e)].
  - destruct process as [[r|]|e]; simpl.
    + between [ProcessStoryRequest JsUndefined (Some (textInput s));
               RecordingComplete (task_id r)].
    + between [ProcessStoryRequest JsUndefined (Some (textInput s));
               AlertFailed (errorMessage NULL_READ)].
    + between [ProcessStoryRequest JsUndefined (Some (textInput s));
               AlertFailed (errorMessage e)].
Qed.

Lemma submit_always_clears_uploading_witness :
  submit_disabled recorded = false
  ∧ handleSubmit_run recorded timed_out task_42
    = [SetUploading true; UploadAudioRequest [0x1A; 0x45; 0xDF; 0xA3]%N;
       AlertFailed (JsString "timeout of 30000ms exceeded"); SetUploading false].
Proof.
  assert (submit_disabled recorded = false) as Hen by reflexivity.
  split; [exact Hen|].
  destruct (submit_always_clears_uploading recorded timed_out task_42 Hen)
    as (between & Hrun & _).
  rewrite Hrun. apply (f_equal (cons (SetUploading true))).
  injection Hrun as Hrest. rewrite <- Hrest. reflexivity.
Defined.

Lemma truthy_not_empty (m : JsValue) : truthy m = true → m ≠ JsString "".
Proof. intros Hm ->. discriminate Hm. Qed.

Lemma failure_report (e : ApiError) :
  truthy (errorMessage e) = true ∧ errorMessage e ≠ JsString "".
Proof.
  pose proof (errorMessage_truthy e) as Hm. split; [done|by apply truthy_not_empty].
Qed.

(** A submission that the button lets through reports exactly once.
    [onRecordingComplete] is called exactly when every request that the
    run awaits resolves with an object: then the call is the only report
    of the run, made once, with the task id that [processStory] answered.
    Otherwise (a request is rejected, or answers [null], whose [task_id]
    cannot be read) the only report is one failure alert, whose message is
    truthy, so not the empty string. *)
Theorem completion_exactly_on_success (s : State) (upload process : Settled Body) :
  submit_disabled s = false →
  (is_Some (completed_task s upload process) ↔
     (∃ processResponse, process = Resolved (Some processResponse))
     ∧ (inputMode s = voice → ∃ uploadResponse, upload = Resolved (Some uploadResponse)))
  ∧ match completed_task s upload process with
    | Some task => reports (handleSubmit_run s upload process) = [RecordingComplete task]
    | None =>
        ∃ m, reports (handleSubmit_run s upload process) = [AlertFailed m]
             ∧ truthy m = true ∧ m ≠ JsString ""
    end.
Proof.
  intros Hen. destruct (enabled_run s upload process Hen) as [Hrun Hblob]. rewrite Hrun.
  unfold completed_task, after_process, failed. split.
  - unfold is_Some. destruct (inputMode s), upload as [[u|]|e0], process as [[r|]|e].
    all: naive_solver.
  - destruct (inputMode s).
    + destruct Hblob as [blob Hb]; [done|]. rewrite Hb.
      destruct upload as [[u|]|e0]; [destruct process as [[r|]|e]| |].
      all: first [reflexivity | eexists; split; [reflexivity|apply failure_report]].
    + destruct upload as [[u|]|e0], process as [[r|]|e].
      all: first [reflexivity | eexists; split; [reflexivity|apply failure_report]].
Qed.

Lemma completion_exactly_on_success_witness :
  submit_disabled typed = false
  ∧ completed_task typed timed_out task_42 = Some (JsString "42")
  ∧ reports (handleSubmit_run typed timed_out task_42) = [RecordingComplete (JsString "42")].
Proof.
  assert (submit_disabled typed = false) as Hen by reflexivity.
  split; [exact Hen|]. split; [reflexivity|].
  pose proof (completion_exactly_on_success typed timed_out task_42 Hen) as [_ Hthm].
  change (completed_task typed timed_out task_42) with (Some (JsString "42")) in Hthm.
  exact Hthm.
Defined.

(** Which requests a run makes. The recording is uploaded in voice mode
    only; [processStory] then gets the task id of the upload and no text,
    and is not called at all when the upload is rejected. In text mode
    nothing is uploaded and [processStory] gets the text as typed, white
    space included, and no audio. *)
Theorem requests_of_a_run (s : State) (upload process : Settled Body) :
  let run := handleSubmit_run s upload process in
  (∀ blob, UploadAudioRequest blob ∈ run ↔ inputMode s = voice ∧ audioBlob s = Some blob)
  ∧ (∀ audio story,
       ProcessStoryRequest audio story ∈ run ↔
         (inputMode s = voice ∧ is_Some (audioBlob s) ∧ story = None
          ∧ ∃ uploadResponse, upload = Resolved (Some uploadResponse)
                              ∧ audio = task_id uploadResponse)
         ∨ (inputMode s = text ∧ trim (textInput s) ≠ [] ∧ audio = JsUndefined
            ∧ story = Some (textInput s))).
Proof.
  unfold handleSubmit_run, after_process, failed. destruct (inputMode s) eqn:Hmode.
  - destruct (audioBlob s) as [blob0|] eqn:Hb.
    + destruct upload as [[u|]|e]; [destruct process as [[r|]|e]| |]; simpl; split.
      all: intros; rewrite ?elem_of_cons, ?elem_of_nil; unfold is_Some; naive_solver.
    + simpl. split.
      all: intros; rewrite ?elem_of_cons, ?elem_of_nil; unfold is_Some; naive_solver.
  - case_bool_decide as Htrim.
    + simpl. split.
      all: intros; rewrite ?elem_of_cons, ?elem_of_nil; naive_solver.
    + destruct process as [[r|]|e]; simpl; split.
      all: intros; rewrite ?elem_of_cons, ?elem_of_nil; naive_solver.
Qed.

(** *** The controls *)

(** Voice mode never holds typed text: whatever the user and the
    recorder do, the text is empty whenever the mode is voice. *)
Theorem voice_mode_has_no_text (s : State) :
  reachable s → inputMode s = voice → textInput s = [].
Proof.
  induction 1 as [recording blob|s e s' _ IH Hstep]; [done|].
  destruct e; simpl in Hstep.
  - destruct (isUploading s || isRecording s); [done|]. by injection Hstep as <-.
  - destruct (isUploading s || isRecording s); [done|]. by injection Hstep as <-.
  - destruct (inputMode s); [done|].
    destruct (isUploading s); [done|]. by injection Hstep as <-.
  - injection Hstep as <-. exact IH.
  - injection Hstep as <-. exact IH.
Qed.

Lemma voice_mode_has_no_text_witness :
  reachable recorded ∧ inputMode recorded = voice ∧ textInput recorded = [].
Proof.
  assert (reachable recorded) as Hreach
    by exact (reachable_mounted false (Some [0x1A; 0x45; 0xDF; 0xA3]%N)).
  assert (inputMode recorded = voice) as Hmode by reflexivity.
  split; [exact Hreach|]. split; [exact Hmode|].
  exact (voice_mode_has_no_text recorded Hreach Hmode).
Defined.

(** Switching from voice to text mode starts with empty text and a
    disabled submit button, whatever [resetRecording] does to the
    recorder: text typed before a detour through voice mode is gone. *)
Theorem entering_text_mode_disables_submit (s s' : State) :
  reachable s → inputMode s = voice → handle s ClickTextMode = Some s' →
  inputMode s' = text ∧ textInput s' = [] ∧ submit_disabled s' = true
  ∧ ∀ recording blob s'',
      handle s' (RecorderUpdate recording blob) = Some s'' → submit_disabled s'' = true.
Proof.
  intros Hreach Hmode Hstep.
  pose proof (voice_mode_has_no_text s Hreach Hmode) as Hempty.
  simpl in Hstep. destruct (isUploading s || isRecording s); [done|].
  injection Hstep as <-. simpl. rewrite Hempty. split_and!; [done..|].
  intros recording blob s'' [= <-]. done.
Qed.

Lemma entering_text_mode_disables_submit_witness :
  let s' := {| isRecording := false; audioBlob := Some [0x1A; 0x45; 0xDF; 0xA3]%N;
               isUploading := false; inputMode := text; textInput := [] |} in
  reachable recorded ∧ inputMode recorded = voice
  ∧ handle recorded ClickTextMode = Some s'
  ∧ submit_disabled s' = true.
Proof.
  intros s'.
  assert (reachable recorded) as Hreach
    by exact (reachable_mounted false (Some [0x1A; 0x45; 0xDF; 0xA3]%N)).
  assert (inputMode recorded = voice) as Hmode by reflexivity.
  assert (handle recorded ClickTextMode = Some s') as Hstep by reflexivity.
  split; [exact Hreach|]. split; [exact Hmode|]. split; [exact Hstep|].
  destruct (entering_text_mode_disables_submit recorded s' Hreach Hmode Hstep)
    as (_ & _ & Hdis & _).
  exact Hdis.
Defined.

End SubmitFacts.

(** ** Downloading the card *)
Section DownloadFacts.
Import Js ResultCard DownloadFlow.
Local Set Warnings "-clear-no-such-hyp".

Lemma prefix_app (p a b : string) :
  String.prefix p a = true → String.prefix p (a ++ b) = true.
Proof.
  revert a. induction p as [|c p IH]; intros a Hp; [by destruct (a +:+ b)|].
  destruct a as [|d a]; [discriminate|]. simpl in *.
  destruct (Ascii.ascii_dec c d); [|done]. by apply IH.
Qed.

(** With a base URL that starts with [http] (the default does), the URL
    that is fetched always starts with [http], and resolving it once more
    changes nothing; a card URL that starts with [http] is used as it is. *)
Theorem fullUrl_is_absolute (VITE_API_BASE_URL : option string) (cardImageUrl : string) :
  String.prefix "http" (api_base VITE_API_BASE_URL) = true →
  String.prefix "http" (fullUrl VITE_API_BASE_URL cardImageUrl) = true
  ∧ fullUrl VITE_API_BASE_URL (fullUrl VITE_API_BASE_URL cardImageUrl)
    = fullUrl VITE_API_BASE_URL cardImageUrl
  ∧ (String.prefix "http" cardImageUrl = true
     → fullUrl VITE_API_BASE_URL cardImageUrl = cardImageUrl).
Proof.
  intros Hbase.
  assert (String.prefix "http" (fullUrl VITE_API_BASE_URL cardImageUrl) = true) as Habs.
  { unfold fullUrl. destruct (String.prefix "http" cardImageUrl) eqn:Hurl; [done|].
    by apply prefix_app. }
  split_and!; [done| |].
  - unfold fullUrl at 1. by rewrite Habs.
  - intros Hurl. unfold fullUrl. by rewrite Hurl.
Qed.

Lemma fullUrl_is_absolute_witness :
  String.prefix "http" (api_base None) = true
  ∧ fullUrl None "/static/cards/42.png" = "http://localhost:8000/static/cards/42.png"%string
  ∧ String.prefix "http" (fullUrl None "/static/cards/42.png") = true.
Proof.
  assert (String.prefix "http" (api_base None) = true) as Hbase by reflexivity.
  split; [exact Hbase|]. split; [reflexivity|].
  destruct (fullUrl_is_absolute None "/static/cards/42.png" Hbase) as (Habs & _).
  exact Habs.
Defined.

Lemma cocktailName_truthy (result : ProcessingResult) : truthy (cocktailName result) = true.
Proof.
  unfold cocktailName, or.
  by destruct (truthy (optional_chain (presentation result) cocktail_name)) eqn:Hn.
Qed.

(** A click on the enabled download button sets the downloading flag
    first and clears it last, whether the fetch succeeds, fails or the
    card URL is not a string, and touches it nowhere in between. *)
Theorem download_always_clears_flag (VITE_API_BASE_URL : option string)
    (result : ProcessingResult) (fetched : Fetched) :
  download_disabled result false = false →
  ∃ between,
    handleDownload_run VITE_API_BASE_URL result false fetched
    = SetDownloading true :: between ++ [SetDownloading false]
    ∧ ∀ b, SetDownloading b ∉ between.
Proof.
  unfold download_disabled, handleDownload_run. simpl. intros ->.
  destruct (cardImageUrl result) as [| |b|q|url|];
    try (exists [AlertDownloadFailed]; split; [done|];
         intros b' H; apply list_elem_of_singleton in H; discriminate).
  destruct fetched as [|[] []].
  2: { exists [FetchRequest (fullUrl VITE_API_BASE_URL url);
               ClickDownloadLink (cocktailName result)].
       split; [done|]. intros b H. rewrite !elem_of_cons, elem_of_nil in H. naive_solver. }
  all: exists [FetchRequest (fullUrl VITE_API_BASE_URL url); AlertDownloadFailed];
    (split; [done|]); intros b H; rewrite !elem_of_cons, elem_of_nil in H; naive_solver.
Qed.

Lemma download_always_clears_flag_witness :
  download_disabled card_ready false = false
  ∧ handleDownload_run None card_ready false NetworkError
    = [SetDownloading true; FetchRequest "http://localhost:8000/static/cards/42.png";
       AlertDownloadFailed; SetDownloading false].
Proof.
  assert (download_disabled card_ready false = false) as Hen by reflexivity.
  split; [exact Hen|].
  destruct (download_always_clears_flag None card_ready NetworkError Hen)
    as (between & Hrun & _).
  rewrite Hrun. injection Hrun as Hrest. rewrite <- Hrest. reflexivity.
Defined.

(** The card is saved exactly when the button was idle, the card URL is a
    string that is not empty, the response is ok and its body can be
    read; the name it is saved under is then never empty. No request is
    made for an empty URL or while a download is running. *)
Theorem card_saved_exactly_on_success (VITE_API_BASE_URL : option string)
    (result : ProcessingResult) (isDownloading : bool) (fetched : Fetched) :
  let run := handleDownload_run VITE_API_BASE_URL result isDownloading fetched in
  (∀ name, ClickDownloadLink name ∈ run ↔
     isDownloading = false ∧ fetched = Response true true
     ∧ name = cocktailName result ∧ truthy name = true
     ∧ ∃ url, cardImageUrl result = JsString url ∧ url ≠ ""%string)
  ∧ (∀ url, FetchRequest url ∈ run →
       download_disabled result isDownloading = false
       ∧ ∃ card, cardImageUrl result = JsString card
                 ∧ url = fullUrl VITE_API_BASE_URL card).
Proof.
  pose proof (cocktailName_truthy result) as Hname.
  unfold handleDownload_run, download_disabled.
  destruct (cardImageUrl result) as [| |b|q|url|] eqn:Hurl; simpl.
  1,2,6: destruct isDownloading; simpl; split; intros;
    rewrite ?elem_of_cons, ?elem_of_nil in *; naive_solver.
  - destruct b, isDownloading; simpl; split; intros;
      rewrite ?elem_of_cons, ?elem_of_nil in *; naive_solver.
  - destruct (Qeq_bool q 0), isDownloading; simpl; split; intros;
      rewrite ?elem_of_cons, ?elem_of_nil in *; naive_solver.
  - destruct (String.eqb_spec url ""), isDownloading, fetched as [|[] []]; simpl; split;
      intros; rewrite ?elem_of_cons, ?elem_of_nil in *; naive_solver.
Qed.

End DownloadFacts.

(** ** The screens of the application *)
Section AppFacts.
Import ResultCard App.



End AppFacts.
